(** * CoreRealtime: the dispatch pipeline of [src/realtime/v2/realtime.js]

    A shallow embedding of [createCoreRealtime]: the guard evaluator
    ([runGuards]), the middleware chain runner ([runMiddleware] and its inner
    [next]), the lifecycle hooks ([runHooks]), the context factory
    ([createContext]), the callback that [start] hands to the transport
    ([on_message]), route registration ([registerRoutes]) and the local event
    bus ([on], [off], [internalEmit]).

    The functions of the program are Rocq functions over an explicit state.
    The functions the program receives from its user (middleware, guards,
    handlers, hooks, listeners) are values of a small type of scripts, which
    lists what such a function can do to the program: have an effect, stop
    the context, read or write [ctx.meta], await the continuation, return,
    throw.  Every [await] is sequential: a script that calls its continuation
    waits for it.  The diagnostic [console.log] calls made under
    [config.debug] do not affect control flow and are left out. *)

From stdpp Require Import gmap strings list.

Open Scope Z_scope.

(** ** JavaScript values *)

Module JS.

#[local] Set Warnings "-register-all".

Inductive value : Type :=
| Undefined
| Null
| Bool (b : bool)
| Num (n : Z)
| NaN
| Str (s : string)
| Obj (fields : gmap string value).

(** ToBoolean, as used by [!x], [x || y] and [if (x)]. *)
Definition truthy (v : value) : bool :=
  match v with
  | Undefined | Null | NaN => false
  | Bool b => b
  | Num n => negb (n =? 0)
  | Str s => negb (String.eqb s "")
  | Obj _ => true
  end.

(** [typeof v === 'boolean'] *)
Definition is_boolean (v : value) : bool :=
  match v with Bool _ => true | _ => false end.

(** [v?.k] for a key [k] that no built-in prototype defines: [undefined]
    on [undefined], [null] and on the primitives, the field on an object. *)
Definition opt_get (v : value) (k : string) : value :=
  match v with
  | Obj fields => default Undefined (fields !! k)
  | _ => Undefined
  end.

End JS.

(** ** Errors, outcomes, observable events *)

(** What a [throw] carries: the [Error] that [next] raises when it is called
    again ([new Error("next() llamado múltiples veces")], the spec's
    DoubleContinuationError), or any value thrown by user code. *)
Inductive error : Type :=
| DoubleContinuationError
| Thrown (v : JS.value).

Inductive outcome (A : Type) : Type :=
| Ok (a : A)
| Exn (e : error).
Arguments Ok {A} a.
Arguments Exn {A} e.

Inductive hook_name : Type :=
| beforeStart | afterStart | beforeMessage | afterMessage | onError.

Inductive chain : Type := GlobalChain | RouteChain.

(** The user functions the dispatcher calls. *)
Inductive callee : Type :=
| Hook (name : hook_name) (k : nat)
| Middleware (ch : chain) (j : nat)
| Guard (k : nat)
| Handler
| ErrorHandler.

(** The trace of one dispatcher: every call of a user function, every effect
    of user code, every [ctx.stop()], every [console.error]. *)
Inductive trace_event : Type :=
| Called (c : callee)
| Did (l : string)
| StopCalled
| ConsoleError (e : error).

(** ** The per-message state

    [stopped] is the closure variable of [createContext], [meta] is
    [ctx.meta]; [trace] is the log of what happened so far. *)
Record world : Type := MkWorld {
  stopped : bool;
  meta : gmap string JS.value;
  trace : list trace_event
}.

Definition record (e : trace_event) (w : world) : world :=
  MkWorld (stopped w) (meta w) (trace w ++ [e]).

Definition stop (w : world) : world :=
  MkWorld true (meta w) (trace w ++ [StopCalled]).

Definition set_meta (k : string) (v : JS.value) (w : world) : world :=
  MkWorld (stopped w) (<[k := v]> (meta w)) (trace w).

(** ** User code

    [code N R] is the body of a user function that returns an [R] and has a
    continuation in scope for every [n : N]: [N] is [unit] for a middleware
    (its [next]) and empty for guards, handlers and hooks. *)
Inductive code (N R : Type) : Type :=
| Return (r : R)
| Throw (e : error)
| Effect (l : string) (k : code N R)
| Stop (k : code N R)
| IsStopped (k : bool -> code N R)
| SetMeta (key : string) (v : JS.value) (k : code N R)
| GetMeta (key : string) (k : JS.value -> code N R)
| AwaitNext (n : N) (k : code N R) (h : error -> code N R).
Arguments Return {N R} r.
Arguments Throw {N R} e.
Arguments Effect {N R} l k.
Arguments Stop {N R} k.
Arguments IsStopped {N R} k.
Arguments SetMeta {N R} key v k.
Arguments GetMeta {N R} key k.
Arguments AwaitNext {N R} n k h.

Section run.
Context {X N R : Type}.
Variable nxt : N -> X * world -> outcome unit * (X * world).

(** Runs a body; [X] is the private state of whoever supplies [nxt].
    [AwaitNext n k h] is [next().then(k, h)]. *)
Fixpoint run (c : code N R) (s : X * world) : outcome R * (X * world) :=
  match c with
  | Return r => (Ok r, s)
  | Throw e => (Exn e, s)
  | Effect l k => run k (s.1, record (Did l) s.2)
  | Stop k => run k (s.1, stop s.2)
  | IsStopped k => run (k (stopped s.2)) s
  | SetMeta key v k => run k (s.1, set_meta key v s.2)
  | GetMeta key k => run (k (default JS.Undefined (meta s.2 !! key))) s
  | AwaitNext n k h =>
      match nxt n s with
      | (Ok _, s') => run k s'
      | (Exn e, s') => run (h e) s'
      end
  end.
End run.

(** Bodies with no continuation in scope. *)
Definition plain (R : Type) : Type := code Empty_set R.

Definition exec {R : Type} (c : plain R) (w : world) : outcome R * world :=
  let '(r, (_, w')) :=
    run (X := unit) (fun n : Empty_set => match n with end) c (tt, w) in
  (r, w').

(** ** The context and the user functions *)

Record context : Type := MkContext {
  type : string;
  payload : JS.value;
  applicationId : JS.value;
  channel : JS.value;
  remoteClient : JS.value;
  localClientId : string;
  appContext : JS.value;
  emitterClientId : JS.value
}.

Definition middleware : Type := context -> code unit unit.
Definition guard : Type := context -> plain JS.value.
Definition handler : Type := context -> plain unit.

Inductive hook_args : Type :=
| NoArgs
| CtxArg (ctx : context)
| ErrCtxArgs (err : error) (ctx : context).

Definition hook : Type := hook_args -> plain unit.

(** What a route holds as [guards].  [registerRoutes] stores the value the
    caller wrote without looking at it: a list of guards, or a value that
    [for (const guard of guards)] cannot iterate ([null], a number, a plain
    object).  On such a value the loop of [runGuards] throws a [TypeError]
    before its first turn, outside the [try] of the loop body.  An element
    that is not a function is the guard that throws: the call [guard(ctx)]
    is inside that [try]. *)
Inductive guards_value : Type :=
| GuardList (gs : list guard)
| NotIterable (v : JS.value).

(** The [TypeError] of [for (const guard of guards)]. *)
Definition not_iterable : error :=
  Thrown (JS.Str "TypeError: guards is not iterable").

Record route : Type := MkRoute {
  guards : guards_value;
  route_middleware : list middleware;
  route_handler : handler
}.

(** The state of one [createCoreRealtime] instance that dispatch reads. *)
Record core : Type := MkCore {
  globalMiddleware : list middleware;
  routes : gmap string route;
  lifecycleHooks : hook_name -> list hook;
  errorHandler : error -> context -> plain unit;
  normalizePayload : option (JS.value -> outcome JS.value);
  globalAppContext : JS.value;
  instanceClientId : string
}.

(** ** runHooks *)

Fixpoint runHooks_from (name : hook_name) (k : nat) (hooks : list hook)
    (args : hook_args) (w : world) : world :=
  match hooks with
  | [] => w
  | h :: rest =>
      match exec (h args) (record (Called (Hook name k)) w) with
      | (Ok _, w') => runHooks_from name (S k) rest args w'
      | (Exn err, w') =>
          runHooks_from name (S k) rest args (record (ConsoleError err) w')
      end
  end.

Definition runHooks (c : core) (name : hook_name) (args : hook_args)
    (w : world) : world :=
  runHooks_from name 0 (lifecycleHooks c name) args w.

(** ** runGuards *)

(** [typeof result === 'boolean' ? result : result?.allowed] *)
Definition allowed_of (result : JS.value) : JS.value :=
  if JS.is_boolean result then result else JS.opt_get result "allowed".

Fixpoint runGuards_from (k : nat) (gs : list guard) (ctx : context)
    (w : world) : bool * world :=
  match gs with
  | [] => (true, w)
  | g :: rest =>
      match exec (g ctx) (record (Called (Guard k)) w) with
      | (Ok result, w') =>
          if negb (JS.truthy (allowed_of result)) then (false, w')
          else runGuards_from (S k) rest ctx w'
      | (Exn err, w') => (false, record (ConsoleError err) w')
      end
  end.

Definition runGuards (gs : list guard) (ctx : context) (w : world)
    : bool * world :=
  runGuards_from 0 gs ctx w.

(** ** runMiddleware *)

(** [next(j)]; [ms] is the chain from index [j] on, so that [middleware[j]]
    is its head, and the state carries the runner's [i]. *)
Fixpoint next (ch : chain) (ctx : context) (ms : list middleware) (j : Z)
    (s : Z * world) : outcome unit * (Z * world) :=
  if bool_decide (j ≤ s.1) then (Exn DoubleContinuationError, s)
  else
    match ms with
    | [] => (Ok tt, (j, s.2))
    | fn :: rest =>
        run (fun _ : unit => next ch ctx rest (j + 1)) (fn ctx)
            (j, record (Called (Middleware ch (Z.to_nat j))) s.2)
    end.

Definition runMiddleware (ch : chain) (ms : list middleware) (ctx : context)
    (w : world) : bool * world :=
  match next ch ctx ms 0 (-1, w) with
  | (Ok _, (_, w')) => (negb (stopped w'), w')
  | (Exn err, (_, w')) => (false, record (ConsoleError err) w')
  end.

(** ** createContext *)

Definition createContext (c : core) (type : string) (fullPayload : JS.value)
    : outcome context :=
  let normalized :=
    match normalizePayload c with
    | Some f => f fullPayload
    | None => Ok fullPayload
    end in
  match normalized with
  | Exn e => Exn e
  | Ok n =>
      let o := if JS.truthy n then n else JS.Obj ∅ in
      Ok {| type := type;
            payload := JS.opt_get o "payload";
            applicationId := JS.opt_get o "applicationId";
            channel := JS.opt_get o "channel";
            remoteClient := JS.opt_get o "clientId";
            localClientId := instanceClientId c;
            appContext := globalAppContext c;
            emitterClientId := JS.opt_get o "emitterClientId" |}
  end.

(** ** The message callback of [start]

    How the callback ended: at the end of the [try] block ([Done]), at one
    of its [return]s ([Rejected]), at the end of the [catch] block
    ([Errored]), or with an exception that left the callback ([Escaped]). *)
Inductive terminal : Type :=
| Done
| Rejected
| Errored
| Escaped (e : error).

Definition fresh (t : list trace_event) : world := MkWorld false ∅ t.

(** The [catch] block of the callback: the [onError] hooks, then the error
    handler, whose exception nothing catches. *)
Definition on_error (c : core) (err : error) (ctx : context) (w : world)
    : terminal * list trace_event :=
  let w6 := runHooks c onError (ErrCtxArgs err ctx) w in
  match exec (errorHandler c err ctx) (record (Called ErrorHandler) w6) with
  | (Ok _, w7) => (Errored, trace w7)
  | (Exn err', w7) => (Escaped err', trace w7)
  end.

(** [runGuards(route.guards, ctx)] has no [try] around its loop: when
    [route.guards] cannot be iterated, the [TypeError] of the loop reaches
    the [catch] block of the callback. *)
Definition on_message (c : core) (type : string) (fullPayload : JS.value)
    (t : list trace_event) : terminal * list trace_event :=
  match createContext c type fullPayload with
  | Exn e => (Escaped e, t)
  | Ok ctx =>
      let w1 := runHooks c beforeMessage (CtxArg ctx) (fresh t) in
      let '(accepted, w2) :=
        runMiddleware GlobalChain (globalMiddleware c) ctx w1 in
      if negb accepted then (Rejected, trace w2)
      else
        match routes c !! type with
        | None => (Rejected, trace w2)
        | Some route =>
            match guards route with
            | NotIterable _ => on_error c not_iterable ctx w2
            | GuardList gs =>
                let '(allowed, w3) := runGuards gs ctx w2 in
                if negb allowed then (Rejected, trace w3)
                else
                  let '(passed, w4) :=
                    runMiddleware RouteChain (route_middleware route) ctx w3
                  in
                  if negb passed then (Rejected, trace w4)
                  else
                    match exec (route_handler route ctx)
                               (record (Called Handler) w4) with
                    | (Ok _, w5) =>
                        (Done, trace (runHooks c afterMessage (CtxArg ctx) w5))
                    | (Exn err, w5) => on_error c err ctx w5
                    end
            end
        end
  end.

(** ** registerRoutes

    A route as the caller writes it: [event] may be absent, [guards] and
    [middleware] default to [[]] when they are absent, and only then, and
    [handler] may be absent or hold something that is not a function.  A
    [middleware] value that is not a list needs no case of its own:
    [middleware[j]] is read inside the [try] of [runMiddleware], so that
    [null] is the chain whose first link throws, and a value without an
    index [0] is the empty chain. *)
Inductive handler_field : Type :=
| HandlerMissing
| HandlerValue (v : JS.value)
| HandlerFunction (h : handler).

Record route_entry : Type := MkRouteEntry {
  event : option string;
  entry_guards : option guards_value;
  entry_middleware : option (list middleware);
  entry_handler : handler_field
}.

Inductive route_list : Type :=
| NotAnArray
| RouteList (l : list route_entry).

(** The three [throw new Error(...)] of [registerRoutes]. *)
Inductive config_error : Type :=
| RouteListNotArray
| InvalidRoute
| HandlerNotFunction (event : string).

Inductive registration : Type :=
| Registered
| Raised (e : config_error).

(** [!event] *)
Definition no_event (e : option string) : bool :=
  match e with
  | None => true
  | Some s => String.eqb s ""
  end.

(** [!handler] *)
Definition no_handler (h : handler_field) : bool :=
  match h with
  | HandlerMissing => true
  | HandlerValue v => negb (JS.truthy v)
  | HandlerFunction _ => false
  end.

(** What [routes.set] stores: [{ guards, middleware, handler }]. *)
Definition stored (r : route_entry) (h : handler) : route :=
  MkRoute (default (GuardList []) (entry_guards r))
          (default [] (entry_middleware r)) h.

(** The body of the [for] loop over [routeList], on the route table. *)
Fixpoint register_each (l : list route_entry) (rt : gmap string route)
    : registration * gmap string route :=
  match l with
  | [] => (Registered, rt)
  | r :: rest =>
      if no_event (event r) || no_handler (entry_handler r)
      then (Raised InvalidRoute, rt)
      else
        match entry_handler r with
        | HandlerFunction h =>
            register_each rest (<[default "" (event r) := stored r h]> rt)
        | _ => (Raised (HandlerNotFunction (default "" (event r))), rt)
        end
  end.

Definition set_routes (rt : gmap string route) (c : core) : core :=
  MkCore (globalMiddleware c) rt (lifecycleHooks c) (errorHandler c)
         (normalizePayload c) (globalAppContext c) (instanceClientId c).

Definition registerRoutes (routeList : route_list) (c : core)
    : registration * core :=
  match routeList with
  | NotAnArray => (Raised RouteListNotArray, c)
  | RouteList l =>
      let '(r, rt) := register_each l (routes c) in (r, set_routes rt c)
  end.

(** ** The local event bus

    [eventListeners] maps an event name to an array object, and [off]
    splices that object in place while [internalEmit] may be iterating over
    it.  The arrays therefore live in a store and the map holds references.
    No custom event emitter is installed.  [off] ends with a call of
    [transport.off], a function of the adapter that may throw, and the
    exception then goes through the listener that called [off] and through
    the emission that invoked it.  A listener is known by the identity of
    its function; [body] gives what that function does: its effects, the
    listeners it registers or removes, and how it ends. *)
Module Bus.

Definition listener : Type := nat.

Inductive script : Type :=
| Return
| Throw (e : error)
| Effect (l : string) (k : script)
| On (ev : string) (cb : listener) (k : script)
| Off (ev : string) (cb : listener) (k : script).

Inductive trace_event : Type :=
| Invoked (cb : listener) (data : JS.value)
| Did (l : string)
| Notified (ev : string) (cb : listener).

(** The bus, with the [off] of the transport when the transport has an
    own property [off] that is a function ([wrapTransport] copies the own
    properties of the adapter).  That function belongs to the adapter: it
    returns or throws as the adapter decides, here from what has happened
    so far and from its two arguments. *)
Record state : Type := MkState {
  arrays : list (list listener);
  eventListeners : gmap string nat;
  trace : list trace_event;
  transport_off :
    option (list trace_event -> string -> listener -> outcome unit)
}.

Definition record (e : trace_event) (st : state) : state :=
  MkState (arrays st) (eventListeners st) (trace st ++ [e])
          (transport_off st).

(** [callbacks.indexOf(callback)] *)
Fixpoint indexOf (cb : listener) (callbacks : list listener) : option nat :=
  match callbacks with
  | [] => None
  | x :: rest =>
      if bool_decide (x = cb) then Some 0%nat
      else S <$> indexOf cb rest
  end.

(** [on]: creates the array of [ev] when there is none, then pushes. *)
Definition on (ev : string) (cb : listener) (st : state) : state :=
  let st1 :=
    match eventListeners st !! ev with
    | Some _ => st
    | None =>
        MkState (arrays st ++ [[]])
                (<[ev := length (arrays st)]> (eventListeners st))
                (trace st) (transport_off st)
    end in
  match eventListeners st1 !! ev with
  | Some a =>
      MkState (alter (fun l => l ++ [cb]) a (arrays st1))
              (eventListeners st1) (trace st1) (transport_off st1)
  | None => st1
  end.

(** The first half of [off]: the first occurrence of [cb] is spliced out
    of the array of [ev]. *)
Definition splice (a : nat) (cb : listener) (st : state) : state :=
  match arrays st !! a with
  | None => st
  | Some callbacks =>
      match indexOf cb callbacks with
      | None => st
      | Some idx =>
          MkState (<[a := delete idx callbacks]> (arrays st))
                  (eventListeners st) (trace st) (transport_off st)
      end
  end.

(** [off].  An event without an array returns at once.  Otherwise the
    callback is spliced out when it is there, and then, whether it was
    there or not, [transport.off(event, callback)] is called when the
    transport has such a function.  [off ev cb st] is the state the call
    leaves and [off_result ev cb st] is how the call ends: with the
    exception of [transport.off] when that throws. *)
Definition off (ev : string) (cb : listener) (st : state) : state :=
  match eventListeners st !! ev with
  | None => st
  | Some a =>
      match transport_off st with
      | None => splice a cb st
      | Some _ => record (Notified ev cb) (splice a cb st)
      end
  end.

Definition off_result (ev : string) (cb : listener) (st : state)
    : outcome unit :=
  match eventListeners st !! ev, transport_off st with
  | Some _, Some f => f (trace st) ev cb
  | _, _ => Ok tt
  end.

(** A listener that calls [off] does not catch what [off] throws. *)
Fixpoint run (c : script) (st : state) : outcome unit * state :=
  match c with
  | Return => (Ok tt, st)
  | Throw e => (Exn e, st)
  | Effect l k => run k (record (Did l) st)
  | On ev cb k => run k (on ev cb st)
  | Off ev cb k =>
      match off_result ev cb st with
      | Ok _ => run k (off ev cb st)
      | Exn e => (Exn e, off ev cb st)
      end
  end.

Section emit.
Variable body : listener -> JS.value -> script.

(** [for (const cb of callbacks) cb(data)]: the array iterator reads
    [callbacks[idx]] from the live array [a] at every step and stops
    when [idx] reaches its current length.  [None] is out of fuel. *)
Fixpoint iterate (fuel : nat) (a : nat) (data : JS.value) (idx : nat)
    (st : state) : option (outcome unit * state) :=
  match fuel with
  | O => None
  | S fuel' =>
      match arrays st !! a ≫= (.!! idx) with
      | None => Some (Ok tt, st)
      | Some cb =>
          match run (body cb data) (record (Invoked cb data) st) with
          | (Ok _, st') => iterate fuel' a data (S idx) st'
          | (Exn e, st') => Some (Exn e, st')
          end
      end
  end.

Definition internalEmit (fuel : nat) (ev : string) (data : JS.value)
    (st : state) : option (outcome unit * state) :=
  match eventListeners st !! ev with
  | None => Some (Ok tt, st)
  | Some a => iterate fuel a data 0%nat st
  end.

Definition emit := internalEmit.
End emit.

(** What a listener ends with when no [off] it calls throws. *)
Fixpoint result_of (c : script) : outcome unit :=
  match c with
  | Return => Ok tt
  | Throw e => Exn e
  | Effect _ k | On _ _ k | Off _ _ k => result_of k
  end.

(** A listener that neither registers nor removes listeners. *)
Fixpoint inert (c : script) : Prop :=
  match c with
  | Return | Throw _ => True
  | Effect _ k => inert k
  | On _ _ _ | Off _ _ _ => False
  end.

Definition same_registry (st st' : state) : Prop :=
  arrays st' = arrays st ∧ eventListeners st' = eventListeners st
  ∧ transport_off st' = transport_off st.

(** The transport has no [off], or its [off] returns when it is called
    with [ev] and [cb]; and: its [off] throws [e] on these arguments. *)
Definition off_returns (ev : string) (cb : listener) (st : state) : Prop :=
  ∀ f t, transport_off st = Some f → f t ev cb = Ok tt.

Definition off_throws (ev : string) (cb : listener) (e : error) (st : state)
    : Prop :=
  ∃ f, transport_off st = Some f ∧ ∀ t, f t ev cb = Exn e.

(** A script that returns and leaves the registry of [st] as it is. *)
Definition harmless (c : script) (st : state) : Prop :=
  ∀ st1, same_registry st st1 →
    (run c st1).1 = Ok tt ∧ same_registry st (run c st1).2.

(** The listeners registered for [ev], in order. *)
Definition listeners (ev : string) (st : state) : list listener :=
  default [] (eventListeners st !! ev ≫= (arrays st !!.)).

(** The listeners invoked, in order. *)
Definition invoked (t : list trace_event) : list listener :=
  omap (fun e => match e with Invoked cb _ => Some cb | _ => None end) t.

(** The calls of [transport.off], in order. *)
Definition notified (t : list trace_event) : list (string * listener) :=
  omap (fun e => match e with Notified ev cb => Some (ev, cb) | _ => None end)
       t.

(** The bus of an instance that has no transport. *)
Definition empty : state := MkState [] ∅ [] None.

(** The bus with the [off] of another transport. *)
Definition with_transport_off
    (f : option (list trace_event -> string -> listener -> outcome unit))
    (st : state) : state :=
  MkState (arrays st) (eventListeners st) (trace st) f.

End Bus.

(** ** The vocabulary of the properties

    [grows allowed w w'] says that [w'] is [w] after some more events, that
    the context is stopped in [w'] exactly when it was stopped in [w] or one
    of these events is a [ctx.stop()], and that every user function called in
    between is one that [allowed] admits. *)
Definition grows (allowed : callee -> Prop) (w w' : world) : Prop :=
  ∃ evs,
    trace w' = trace w ++ evs
    ∧ (stopped w' = true ↔ stopped w = true ∨ StopCalled ∈ evs)
    ∧ (∀ c, Called c ∈ evs → allowed c).

(** User code calls no user function of the dispatcher by itself. *)
Definition nobody : callee -> Prop := fun _ => False.

Definition is_hook (name : hook_name) : callee -> Prop :=
  fun c => ∃ k, c = Hook name k.
Definition is_guard : callee -> Prop := fun c => ∃ k, c = Guard k.
Definition is_middleware (ch : chain) : callee -> Prop :=
  fun c => ∃ j, c = Middleware ch j.

(** The user functions called before and after the handler. *)
Definition before_handler : callee -> Prop :=
  fun c => is_hook beforeMessage c ∨ (∃ ch, is_middleware ch c) ∨ is_guard c.

Definition after_handler : callee -> Prop :=
  fun c => is_hook afterMessage c ∨ is_hook onError c ∨ c = ErrorHandler.

(** ** Instances used in the examples below *)

(** The default [errorHandler]: it sends an [error] event that carries
    [err.message] back through [ctx.send].  Reading [err.message] throws a
    [TypeError] when the value thrown was [null] or [undefined]; the
    [send] of the adapter is taken to return. *)
Definition defaultErrorHandler : error -> context -> plain unit :=
  fun err _ =>
    match err with
    | Thrown JS.Undefined | Thrown JS.Null =>
        Throw (Thrown (JS.Str "TypeError: cannot read properties of null"))
    | _ => Effect "send error" (Return tt)
    end.

Definition no_hooks : hook_name -> list hook := fun _ => [].

(** The state right after [createCoreRealtime()], with an adapter that has
    no [normalizePayload]. *)
Definition new_core : core :=
  MkCore [] ∅ no_hooks defaultErrorHandler None JS.Undefined "local".

Definition log_hook (l : string) : hook := fun _ => Effect l (Return tt).

Definition log_hooks : hook_name -> list hook :=
  fun name =>
    match name with
    | afterMessage => [log_hook "afterMessage hook"]
    | onError => [log_hook "onError hook"]
    | _ => []
    end.

Definition echo_route : route :=
  MkRoute (GuardList []) [] (fun _ => Effect "handler" (Return tt)).

(** [async (ctx, next) => { await next(); await next(); }] *)
Definition calls_next_twice : middleware :=
  fun _ => AwaitNext tt (AwaitNext tt (Return tt) Throw) Throw.

Definition core_twice : core :=
  MkCore [calls_next_twice] {["x" := echo_route]} log_hooks
         defaultErrorHandler None JS.Undefined "local".

(** The same middleware registered on the route instead. *)
Definition core_twice_route : core :=
  MkCore [] {["x" := MkRoute (GuardList []) [calls_next_twice]
                       (fun _ => Effect "handler" (Return tt))]}
         log_hooks defaultErrorHandler None JS.Undefined "local".


Definition second_middleware : middleware :=
  fun _ => Effect "second" (AwaitNext tt (Return tt) Throw).


Definition sample_context : context :=
  MkContext "x" JS.Undefined JS.Undefined JS.Undefined JS.Undefined
            "local" JS.Undefined JS.Undefined.




(** A handler that throws, with the default error handler, with an error
    handler that throws in turn, and behind a middleware that throws. *)
Definition boom : error := Thrown (JS.Str "boom").

Definition boom_route : route :=
  MkRoute (GuardList []) [] (fun _ => Throw boom).

Definition core_boom : core :=
  MkCore [] {["x" := boom_route]} log_hooks defaultErrorHandler None
         JS.Undefined "local".




(** A route whose [guards] is [null]; a handler that throws [null]; an
    error handler, as [setErrorHandler] installs it, that only logs. *)
Definition null_guards_route : route :=
  MkRoute (NotIterable JS.Null) [] (fun _ => Effect "handler" (Return tt)).

Definition core_null_guards : core :=
  MkCore [] {["x" := null_guards_route]} log_hooks defaultErrorHandler None
         JS.Undefined "local".


Definition core_null_guards_rethrow : core :=
  MkCore [] {["x" := null_guards_route]} log_hooks (fun e _ => Throw e) None
         JS.Undefined "local".



(** ** The guard evaluator in the words of the spec

    A guard allows when it returns and its result counts as allowed; it
    rejects when its result does not, or when it throws.  [all_allow] is an
    evaluation, in order, in which every guard allows. *)
Definition guard_allows (g : guard) (ctx : context) (k : nat)
    (w w' : world) : Prop :=
  ∃ v, exec (g ctx) (record (Called (Guard k)) w) = (Ok v, w')
       ∧ JS.truthy (allowed_of v) = true.

Definition guard_rejects (g : guard) (ctx : context) (k : nat)
    (w w' : world) : Prop :=
  (∃ v, exec (g ctx) (record (Called (Guard k)) w) = (Ok v, w')
        ∧ JS.truthy (allowed_of v) = false)
  ∨ (∃ e w1, exec (g ctx) (record (Called (Guard k)) w) = (Exn e, w1)
             ∧ w' = record (ConsoleError e) w1).

Inductive all_allow (ctx : context)
    : nat -> list guard -> world -> world -> Prop :=
| all_allow_nil k w : all_allow ctx k [] w w
| all_allow_cons k g gs w w1 w2 :
    guard_allows g ctx k w w1 →
    all_allow ctx (S k) gs w1 w2 →
    all_allow ctx k (g :: gs) w w2.

(** The user functions called, in order. *)
Definition calls (evs : list trace_event) : list callee :=
  omap (fun e => match e with Called c => Some c | _ => None end) evs.

Definition allow : guard := fun _ => Return (JS.Bool true).

(** [ctx => ({allowed: false, reason: "no-perm"})] *)
Definition deny : guard :=
  fun _ => Return (JS.Obj {["allowed" := JS.Bool false;
                            "reason" := JS.Str "no-perm"]}).

Definition throwing_guard : guard := fun _ => Throw boom.

Definition core_guarded (gs : list guard) : core :=
  MkCore [] {["secure.action" := MkRoute (GuardList gs) [second_middleware]
                                   (fun _ => Effect "handler" (Return tt))]}
         log_hooks defaultErrorHandler None JS.Undefined "local".

(** ** Route entries in the words of the spec

    An entry is invalid when its event type is absent or empty, or when its
    handler is absent or is not a function. *)
Definition invalid_entry (r : route_entry) : Prop :=
  event r = None ∨ event r = Some ""
  ∨ entry_handler r = HandlerMissing ∨ ∃ v, entry_handler r = HandlerValue v.

Definition valid_entry (r : route_entry) : Prop :=
  ∃ s h, event r = Some s ∧ s ≠ "" ∧ entry_handler r = HandlerFunction h.

Definition pong : handler := fun _ => Effect "send pong" (Return tt).

Definition ping_entry : route_entry :=
  MkRouteEntry (Some "ping") None None (HandlerFunction pong).

Definition chat_entry : route_entry :=
  MkRouteEntry (Some "chat") (Some (GuardList [allow])) None (HandlerFunction pong).

(** A second entry for [ping], with a guard and a middleware, and an entry
    whose [guards] is [null]. *)
Definition guarded_ping : route_entry :=
  MkRouteEntry (Some "ping") (Some (GuardList [deny])) (Some [second_middleware])
               (HandlerFunction pong).

Definition null_guards_entry : route_entry :=
  MkRouteEntry (Some "x") (Some (NotIterable JS.Null)) None
               (HandlerFunction pong).

Definition nameless_entry : route_entry :=
  MkRouteEntry (Some "") None None (HandlerFunction pong).

Definition text_handler_entry : route_entry :=
  MkRouteEntry (Some "x") None None (HandlerValue (JS.Str "not a function")).

(** Listeners for the examples: [thrower] throws its argument, [remover]
    removes listener [0] of event [e], every other listener returns at once.
    [register_all ev l] registers the listeners of [l] for [ev], in order,
    on a bus that has none. *)
Definition thrower : Bus.listener := 7%nat.
Definition remover : Bus.listener := 8%nat.

Definition sample_body (cb : Bus.listener) (data : JS.value) : Bus.script :=
  if bool_decide (cb = thrower) then Bus.Throw (Thrown data)
  else if bool_decide (cb = remover) then Bus.Off "e" 0%nat Bus.Return
  else Bus.Return.

Definition register_all (ev : string) (l : list Bus.listener) : Bus.state :=
  foldl (fun st cb => Bus.on ev cb st) Bus.empty l.

(** ** More vocabulary: middleware that never call their continuation *)

(** A body in which no [next()] occurs, on any path. *)
Fixpoint no_next {N R : Type} (c : code N R) : Prop :=
  match c with
  | Return _ | Throw _ => True
  | Effect _ k | Stop k | SetMeta _ _ k => no_next k
  | IsStopped k => ∀ b, no_next (k b)
  | GetMeta _ k => ∀ v, no_next (k v)
  | AwaitNext _ _ _ => False
  end.

(** A continuation that does nothing, to run a middleware on its own. *)
Definition no_continuation (_ : unit) (s : Z * world)
    : outcome unit * (Z * world) :=
  (Ok tt, s).

(** How many middleware of a chain of [len] have been called when the
    runner's [i] is as given. *)
Definition called_upto (len : nat) (i : Z) : nat :=
  Nat.min (Z.to_nat (i + 1)) len.

(** [async (ctx, next) => { log; }]: returns without calling [next] and
    without stopping the context. *)
Definition forgets_next : middleware :=
  fun _ => Effect "no next" (Return tt).

(** The user functions of the pipeline proper, and everything the
    dispatcher calls once the before-message hooks are over. *)
Definition in_pipeline : callee -> Prop :=
  fun c => (∃ ch, is_middleware ch c) ∨ is_guard c.

Definition past_before_hooks : callee -> Prop :=
  fun c => in_pipeline c ∨ c = Handler ∨ after_handler c.

Definition core_forgets_next : core :=
  MkCore [forgets_next; second_middleware] {["x" := echo_route]} log_hooks
         defaultErrorHandler None JS.Undefined "local".

(** ** More vocabulary: the listener registry *)

(** The registry is in order when every event name refers to an array of
    the store and no two names refer to the same array, as is the case of
    a [Map] whose values are arrays created one per key. *)
Definition registry_ok (st : Bus.state) : Prop :=
  (∀ ev a, Bus.eventListeners st !! ev = Some a →
           (a < length (Bus.arrays st))%nat)
  ∧ (∀ ev1 ev2 a, Bus.eventListeners st !! ev1 = Some a →
                  Bus.eventListeners st !! ev2 = Some a → ev1 = ev2).

(** A list without the first occurrence of [cb]. *)
Fixpoint remove_first (cb : Bus.listener) (l : list Bus.listener)
    : list Bus.listener :=
  match l with
  | [] => []
  | x :: rest => if bool_decide (x = cb) then rest else x :: remove_first cb rest
  end.

(** Listeners for more examples: [adder] registers listener [6] for [e],
    [once] removes itself, and under [growing_body] every listener
    registers itself again. *)
Definition adder : Bus.listener := 5%nat.
Definition once : Bus.listener := 9%nat.

Definition busy_body (cb : Bus.listener) (data : JS.value) : Bus.script :=
  if bool_decide (cb = adder) then Bus.On "e" 6%nat Bus.Return
  else if bool_decide (cb = once) then Bus.Off "e" once Bus.Return
  else Bus.Return.

Definition growing_body (cb : Bus.listener) (data : JS.value) : Bus.script :=
  Bus.On "e" cb Bus.Return.

(** ** The rest of the public API

    The state of one [createCoreRealtime] instance beyond what dispatch
    reads: the adapter, the [isActive] flag, [config] and the listener
    registry.  An adapter is described by what the core asks of it: whether
    [instance.onMessage], [instance.send] and [instance.broadcast] are
    functions, and which of the optional [normalizePayload], [disconnect]
    and [off] the spread in [wrapTransport] copies.  The adapter itself
    is outside the program: the instance counts the calls it makes to
    [transport.onMessage] and [transport.disconnect].  [plugins], the
    serializer and the custom event emitter are left out, with the
    functions that only concern them ([use], [setSerializer],
    [setEventEmitter]). *)
Module Api.

Record adapter_object : Type := MkAdapter {
  onMessage_is_function : bool;
  send_is_function : bool;
  broadcast_is_function : bool;
  own_normalizePayload : option (JS.value -> outcome JS.value);
  own_disconnect : bool;
  own_off :
    option (list Bus.trace_event -> string -> Bus.listener -> outcome unit)
}.

Record instance : Type := MkInstance {
  dispatcher : core;
  transport : option adapter_object;
  isActive : bool;
  config : gmap string JS.value;
  bus : Bus.state;
  onMessage_calls : nat;
  disconnect_calls : nat;
  warnings : nat;
  journal : list trace_event
}.

(** What the API functions throw; [FromAdapter] is an exception of the
    adapter's own [off]. *)
Inductive api_error : Type :=
| MiddlewareListNotArray
| UnknownHook (name : string)
| AdapterIsNull
| AdapterMethodRequired (method : string)
| AdapterNotDefined
| NotAFunction (method : string)
| FromAdapter (e : error).

Inductive result : Type :=
| Returned
| Threw (e : api_error).

Definition defaultConfig : gmap string JS.value :=
  {[ "autoReconnect" := JS.Bool true;
     "maxReconnectAttempts" := JS.Num 5;
     "reconnectDelay" := JS.Num 1000;
     "debug" := JS.Bool false;
     "strictMode" := JS.Bool true ]}.

(** [createCoreRealtime(options)] *)
Definition createCoreRealtime (options : gmap string JS.value)
    (clientId : string) : instance :=
  MkInstance
    (MkCore [] ∅ (fun _ => []) defaultErrorHandler None (JS.Obj ∅) clientId)
    None false (options ∪ defaultConfig) Bus.empty 0 0 0 [].

Definition set_dispatcher (c : core) (i : instance) : instance :=
  MkInstance c (transport i) (isActive i) (config i) (bus i)
             (onMessage_calls i) (disconnect_calls i) (warnings i) (journal i).

(** [configure(options)]: [config = { ...config, ...options }] *)
Definition configure (options : gmap string JS.value) (i : instance)
    : instance :=
  MkInstance (dispatcher i) (transport i) (isActive i) (options ∪ config i)
             (bus i) (onMessage_calls i) (disconnect_calls i) (warnings i)
             (journal i).

(** [registerGlobalMiddleware(middlewareList)]; [None] is an argument that
    is not an array. *)
Definition registerGlobalMiddleware (middlewareList : option (list middleware))
    (i : instance) : result * instance :=
  match middlewareList with
  | None => (Threw MiddlewareListNotArray, i)
  | Some l =>
      let c := dispatcher i in
      (Returned,
       set_dispatcher
         (MkCore (globalMiddleware c ++ l) (routes c) (lifecycleHooks c)
                 (errorHandler c) (normalizePayload c) (globalAppContext c)
                 (instanceClientId c)) i)
  end.

(** The keys of [lifecycleHooks]. *)
Definition hook_of_name (name : string) : option hook_name :=
  if String.eqb name "beforeStart" then Some beforeStart
  else if String.eqb name "afterStart" then Some afterStart
  else if String.eqb name "beforeMessage" then Some beforeMessage
  else if String.eqb name "afterMessage" then Some afterMessage
  else if String.eqb name "onError" then Some onError
  else None.

(** [lifecycleHooks] is an object literal: besides its five keys,
    [lifecycleHooks[name]] finds the properties of [Object.prototype],
    which are functions, or the prototype itself for [__proto__]: truthy
    values that have no [push]. *)
Definition object_prototype_names : list string :=
  [ "constructor"; "hasOwnProperty"; "isPrototypeOf";
    "propertyIsEnumerable"; "toLocaleString"; "toString"; "valueOf";
    "__proto__"; "__defineGetter__"; "__defineSetter__";
    "__lookupGetter__"; "__lookupSetter__" ].

Definition same_hook_name (a b : hook_name) : bool :=
  match a, b with
  | beforeStart, beforeStart | afterStart, afterStart
  | beforeMessage, beforeMessage | afterMessage, afterMessage
  | onError, onError => true
  | _, _ => false
  end.

(** [hook(name, callback)]: [!lifecycleHooks[name]] throws for a name
    that the object does not have, own or inherited, and
    [lifecycleHooks[name].push(callback)] is a [TypeError] for an inherited
    one. *)
Definition hook (name : string) (callback : hook) (i : instance)
    : result * instance :=
  match hook_of_name name with
  | None =>
      if bool_decide (name ∈ object_prototype_names)
      then (Threw (NotAFunction "push"), i)
      else (Threw (UnknownHook name), i)
  | Some n =>
      let c := dispatcher i in
      (Returned,
       set_dispatcher
         (MkCore (globalMiddleware c) (routes c)
                 (fun n' => if same_hook_name n' n
                            then lifecycleHooks c n' ++ [callback]
                            else lifecycleHooks c n')
                 (errorHandler c) (normalizePayload c) (globalAppContext c)
                 (instanceClientId c)) i)
  end.

(** [validateAdapter(instance)]: the first required method that is not a
    function, if any. *)
Definition validateAdapter (a : adapter_object) : option api_error :=
  if negb (onMessage_is_function a) then Some (AdapterMethodRequired "onMessage")
  else if negb (send_is_function a) then Some (AdapterMethodRequired "send")
  else if negb (broadcast_is_function a)
       then Some (AdapterMethodRequired "broadcast")
  else None.

(** [config.strictMode], as [if (config.strictMode)] reads it. *)
Definition strictMode (i : instance) : bool :=
  JS.truthy (default JS.Undefined (config i !! "strictMode")).

Definition set_transport (a : adapter_object) (i : instance) : instance :=
  let c := dispatcher i in
  MkInstance
    (MkCore (globalMiddleware c) (routes c) (lifecycleHooks c) (errorHandler c)
            (own_normalizePayload a) (globalAppContext c) (instanceClientId c))
    (Some a) (isActive i) (config i) (bus i)
    (onMessage_calls i) (disconnect_calls i) (warnings i) (journal i).

(** [adapter(instance)]; [None] is a falsy argument. *)
Definition adapter (a : option adapter_object) (i : instance)
    : result * instance :=
  match a with
  | None => (Threw AdapterIsNull, i)
  | Some a =>
      if strictMode i then
        match validateAdapter a with
        | Some e => (Threw e, i)
        | None => (Returned, set_transport a i)
        end
      else (Returned, set_transport a i)
  end.

(** [setAppContext(ctx)]: [globalAppContext = ctx || {}] *)
Definition setAppContext (ctx : JS.value) (i : instance) : instance :=
  let c := dispatcher i in
  set_dispatcher
    (MkCore (globalMiddleware c) (routes c) (lifecycleHooks c) (errorHandler c)
            (normalizePayload c)
            (if JS.truthy ctx then ctx else JS.Obj ∅)
            (instanceClientId c)) i.

(** The hooks of [start] have no context; they run in a world of their
    own, of which the journal keeps the trace. *)
Definition run_start_hooks (name : hook_name) (i : instance)
    : list trace_event :=
  trace (runHooks (dispatcher i) name NoArgs (MkWorld false ∅ (journal i))).

Definition with_journal (t : list trace_event) (i : instance) : instance :=
  MkInstance (dispatcher i) (transport i) (isActive i) (config i) (bus i)
             (onMessage_calls i) (disconnect_calls i) (warnings i) t.

(** [start()].  The wrapped [transport.onMessage] calls the adapter's
    [onMessage], which is a [TypeError] when the adapter has none. *)
Definition start (i : instance) : result * instance :=
  match transport i with
  | None => (Threw AdapterNotDefined, i)
  | Some a =>
      if isActive i then
        (Returned,
         MkInstance (dispatcher i) (transport i) (isActive i) (config i)
                    (bus i) (onMessage_calls i) (disconnect_calls i)
                    (S (warnings i)) (journal i))
      else
        let i1 := with_journal (run_start_hooks beforeStart i) i in
        if onMessage_is_function a then
          let i2 :=
            MkInstance (dispatcher i1) (transport i1) true (config i1)
                       (bus i1) (S (onMessage_calls i1)) (disconnect_calls i1)
                       (warnings i1) (journal i1) in
          (Returned, with_journal (run_start_hooks afterStart i2) i2)
        else (Threw (NotAFunction "onMessage"), i1)
  end.

(** [eventListeners.clear()] *)
Definition clear (st : Bus.state) : Bus.state :=
  Bus.MkState (Bus.arrays st) ∅ (Bus.trace st) (Bus.transport_off st).

(** [stop()] *)
Definition stop (i : instance) : instance :=
  if negb (isActive i) then i
  else
    MkInstance (dispatcher i) (transport i) false (config i) (clear (bus i))
               (onMessage_calls i)
               (match transport i with
                | Some a =>
                    if own_disconnect a then S (disconnect_calls i)
                    else disconnect_calls i
                | None => disconnect_calls i
                end)
               (warnings i) (journal i).

(** [reset()].  The dispatcher's [normalizePayload] is the transport's and
    goes with it; what a message that still arrives after [reset] meets, a
    [transport] that is [null], is not part of [on_message]. *)
Definition reset (i : instance) : instance :=
  let i1 := stop i in
  let c := dispatcher i1 in
  MkInstance
    (MkCore [] ∅ (fun _ => []) (errorHandler c) None (JS.Obj ∅)
            (instanceClientId c))
    None (isActive i1) (config i1) (bus i1)
    (onMessage_calls i1) (disconnect_calls i1) (warnings i1) (journal i1).

Definition set_bus (st : Bus.state) (i : instance) : instance :=
  MkInstance (dispatcher i) (transport i) (isActive i) (config i) st
             (onMessage_calls i) (disconnect_calls i) (warnings i) (journal i).

(** [on], [off] and [emit], on the instance.  [off] reads the variable
    [transport] when it is called: the bus runs with the [off] of the
    transport that is bound then, [attached], and the instance keeps the
    listeners and the trace that the call leaves, [kept]. *)
Definition on (ev : string) (cb : Bus.listener) (i : instance) : instance :=
  set_bus (Bus.on ev cb (bus i)) i.

Definition attached (i : instance) : Bus.state :=
  Bus.with_transport_off (transport i ≫= own_off) (bus i).

Definition kept (st : Bus.state) (i : instance) : instance :=
  set_bus (Bus.with_transport_off (Bus.transport_off (bus i)) st) i.

Definition off (ev : string) (cb : Bus.listener) (i : instance)
    : result * instance :=
  (match Bus.off_result ev cb (attached i) with
   | Ok _ => Returned
   | Exn e => Threw (FromAdapter e)
   end,
   kept (Bus.off ev cb (attached i)) i).

Definition emit (body : Bus.listener -> JS.value -> Bus.script) (fuel : nat)
    (ev : string) (data : JS.value) (i : instance)
    : option (outcome unit * instance) :=
  match Bus.emit body fuel ev data (attached i) with
  | Some (r, st) => Some (r, kept st i)
  | None => None
  end.

End Api.

(** Adapters and instances for the examples. *)
Definition full_adapter : Api.adapter_object :=
  Api.MkAdapter true true true None true None.

Definition mute_adapter : Api.adapter_object :=
  Api.MkAdapter true false true None false None.

(** The [off] of the mock adapter, [off(type, callback, channelName)]: it
    throws when it is called without a channel name, as the core calls
    it. *)
Definition channel_name_missing : error :=
  Thrown (JS.Str "Debe especificar channelName para off").

Definition mock_off
    : list Bus.trace_event -> string -> Bus.listener -> outcome unit :=
  fun _ _ _ => Exn channel_name_missing.

Definition mock_adapter : Api.adapter_object :=
  Api.MkAdapter true true true None false (Some mock_off).

(** An adapter whose [off] returns. *)
Definition quiet_off
    : list Bus.trace_event -> string -> Bus.listener -> outcome unit :=
  fun _ _ _ => Ok tt.

(** The listeners of [l], registered for [ev] on the bus of an instance
    whose transport has this [off]. *)
Definition register_with
    (f : list Bus.trace_event -> string -> Bus.listener -> outcome unit)
    (ev : string) (l : list Bus.listener) : Bus.state :=
  Bus.with_transport_off (Some f) (register_all ev l).

Definition fresh_instance : Api.instance := Api.createCoreRealtime ∅ "local".

(** A new instance in which the event [e] has a list that is empty. *)
Definition fresh_instance_with_an_empty_list : Api.instance :=
  Api.set_bus (Bus.MkState [[]] {["e" := 0%nat]} [] None) fresh_instance.

Definition ready_instance : Api.instance :=
  snd (Api.adapter (Some full_adapter)
         (snd (Api.hook "afterStart" (log_hook "started")
                 (snd (Api.hook "beforeStart" (log_hook "starting")
                         (Api.on "e" 1%nat fresh_instance)))))).

(** The name under which each list of hooks is kept. *)
Definition name_of_hook (n : hook_name) : string :=
  match n with
  | beforeStart => "beforeStart"
  | afterStart => "afterStart"
  | beforeMessage => "beforeMessage"
  | afterMessage => "afterMessage"
  | onError => "onError"
  end.

(** The instance after [console.warn] in [start]. *)
Definition warned (i : Api.instance) : Api.instance :=
  Api.MkInstance (Api.dispatcher i) (Api.transport i) (Api.isActive i)
                 (Api.config i) (Api.bus i) (Api.onMessage_calls i)
                 (Api.disconnect_calls i) (S (Api.warnings i)) (Api.journal i).

(** * Properties *)

(** ** How the trace and the stopped flag evolve *)

Section grows.
Variable allowed : callee -> Prop.

Lemma grows_refl w : grows allowed w w.
Proof.
  exists []. rewrite app_nil_r. split_and!; [done| |].
  - split; [by left|]. intros [H|H]; [done|]. by apply elem_of_nil in H.
  - intros c H. by apply elem_of_nil in H.
Qed.

Lemma grows_trans w1 w2 w3 :
  grows allowed w1 w2 → grows allowed w2 w3 → grows allowed w1 w3.
Proof.
  intros (e1 & T1 & S1 & C1) (e2 & T2 & S2 & C2).
  exists (e1 ++ e2). split_and!.
  - by rewrite T2, T1, app_assoc.
  - rewrite S2, S1, elem_of_app. tauto.
  - intros c [H|H]%elem_of_app; auto.
Qed.

Lemma grows_event e w :
  e ≠ StopCalled → (∀ c, e = Called c → allowed c) →
  grows allowed w (record e w).
Proof.
  intros Hs Hc. exists [e]. split_and!; [done| |].
  - simpl. split; [by left|]. intros [H|H]; [done|].
    apply list_elem_of_singleton in H. congruence.
  - intros c H. apply list_elem_of_singleton in H. auto.
Qed.

Lemma grows_stop w : grows allowed w (stop w).
Proof.
  exists [StopCalled]. split_and!; [done| |].
  - simpl. split; [|done]. intros _. right. apply list_elem_of_here.
  - intros c H. apply list_elem_of_singleton in H. discriminate.
Qed.

Lemma grows_set_meta k v w : grows allowed w (set_meta k v w).
Proof. destruct (grows_refl w) as (evs & ? & ? & ?). by exists evs. Qed.
End grows.

Lemma grows_mono (a b : callee -> Prop) w w' :
  (∀ c, a c → b c) → grows a w w' → grows b w w'.
Proof. intros Hab (evs & T & S & C). exists evs. split_and!; auto. Qed.

(** ** Invariants of user code *)

Section run_invariant.
Context {X N R : Type}.
Variable nxt : N -> X * world -> outcome unit * (X * world).
Variable Rel : X * world -> X * world -> Prop.
Hypothesis Rel_refl : ∀ s, Rel s s.
Hypothesis Rel_trans : ∀ s1 s2 s3, Rel s1 s2 → Rel s2 s3 → Rel s1 s3.
Hypothesis Rel_did : ∀ x w l, Rel (x, w) (x, record (Did l) w).
Hypothesis Rel_stop : ∀ x w, Rel (x, w) (x, stop w).
Hypothesis Rel_meta : ∀ x w k v, Rel (x, w) (x, set_meta k v w).
Hypothesis Rel_nxt : ∀ n s r s', nxt n s = (r, s') → Rel s s'.

(** Whatever the primitive steps and the continuation preserve, a body
    preserves. *)
Lemma run_invariant (c : code N R) s r s' :
  run nxt c s = (r, s') → Rel s s'.
Proof.
  revert s r s'.
  induction c as [r0|e|l k IH|k IH|k IH|key v k IH|key k IH|n k IHk h IHh];
    intros [x w] r s' E; simpl in E.
  - by inversion E.
  - by inversion E.
  - eapply Rel_trans; [apply Rel_did | eapply IH, E].
  - eapply Rel_trans; [apply Rel_stop | eapply IH, E].
  - eapply IH, E.
  - eapply Rel_trans; [apply Rel_meta | eapply IH, E].
  - eapply IH, E.
  - destruct (nxt n (x, w)) as [[[]|e] s1] eqn:En.
    + eapply Rel_trans; [eapply Rel_nxt, En | eapply IHk, E].
    + eapply Rel_trans; [eapply Rel_nxt, En | eapply IHh, E].
Qed.
End run_invariant.


Lemma exec_grows {R} (c : plain R) w r w' :
  exec c w = (r, w') → grows nobody w w'.
Proof.
  unfold exec.
  destruct (run _ c (tt, w)) as [r1 [[] w1]] eqn:E. intros [= <- <-].
  apply (run_invariant _ (fun s s' => grows nobody s.2 s'.2)) in E; [done|..].
  - intros s. apply grows_refl.
  - intros s1 s2 s3. apply grows_trans.
  - intros x w0 l. by apply grows_event.
  - intros x w0. apply grows_stop.
  - intros x w0 k v. apply grows_set_meta.
  - intros [].
Qed.

(** ** Invariants of the runners *)


Lemma grows_console allowed e w : grows allowed w (record (ConsoleError e) w).
Proof. by apply grows_event. Qed.

Lemma grows_called (allowed : callee -> Prop) c w :
  allowed c → grows allowed w (record (Called c) w).
Proof. intros H. apply grows_event; [done|]. by intros c' [= <-]. Qed.

Lemma exec_grows_any {R} allowed (c : plain R) w r w' :
  exec c w = (r, w') → grows allowed w w'.
Proof. intros E. eapply grows_mono; [|eapply exec_grows, E]. intros ? []. Qed.

Lemma runHooks_from_grows name k hooks args w :
  grows (is_hook name) w (runHooks_from name k hooks args w).
Proof.
  revert k w. induction hooks as [|h rest IH]; intros k w; simpl.
  - apply grows_refl.
  - destruct (exec _ _) as [[[]|err] w1] eqn:E;
      (eapply grows_trans; [apply grows_called; by exists k|]);
      (eapply grows_trans; [eapply exec_grows_any, E|]).
    + apply IH.
    + eapply grows_trans; [apply grows_console | apply IH].
Qed.

Lemma runHooks_grows c name args w :
  grows (is_hook name) w (runHooks c name args w).
Proof. apply runHooks_from_grows. Qed.

Lemma runGuards_from_grows k gs ctx w b w' :
  runGuards_from k gs ctx w = (b, w') → grows is_guard w w'.
Proof.
  revert k w. induction gs as [|g rest IH]; intros k w; simpl.
  - intros [= <- <-]. apply grows_refl.
  - destruct (exec _ _) as [[v|err] w1] eqn:E; intros H;
      (eapply grows_trans; [apply grows_called; by exists k|]);
      (eapply grows_trans; [eapply exec_grows_any, E|]).
    + destruct (negb _); [|by eapply IH].
      injection H as <- <-. apply grows_refl.
    + injection H as <- <-. apply grows_console.
Qed.

(** The runner's [i] never decreases, and after [next(j)] it is at least
    [j], whether the call returned or threw. *)
Lemma next_invariant ch ctx ms j s r s' :
  next ch ctx ms j s = (r, s') →
  s.1 ≤ s'.1 ∧ j ≤ s'.1 ∧ grows (is_middleware ch) s.2 s'.2.
Proof.
  revert j s r s'. induction ms as [|fn rest IH]; intros j [i w] r s'; simpl.
  - case_bool_decide as Hj.
    + intros [= <- <-]. simpl. split_and!; [lia|lia|apply grows_refl].
    + intros [= <- <-]. simpl. split_and!; [lia|lia|apply grows_refl].
  - case_bool_decide as Hj.
    + intros [= <- <-]. simpl. split_and!; [lia|lia|apply grows_refl].
    + intros E.
      apply (run_invariant _
        (fun a b => a.1 ≤ b.1 ∧ grows (is_middleware ch) a.2 b.2)) in E.
      * destruct E as [Hi Hg]. simpl in *. split_and!; [lia|lia|].
        eapply grows_trans; [|apply Hg].
        apply grows_called. by eexists.
      * intros a. split; [lia|apply grows_refl].
      * intros a b c [] []. split; [lia|by eapply grows_trans].
      * intros x w0 l. split; [done|by apply grows_event].
      * intros x w0. split; [done|apply grows_stop].
      * intros x w0 k v. split; [done|apply grows_set_meta].
      * intros [] a r' b En. apply IH in En. tauto.
Qed.

Lemma runMiddleware_grows ch ms ctx w b w' :
  runMiddleware ch ms ctx w = (b, w') →
  grows (is_middleware ch) w w' ∧ (b = true → stopped w' = false).
Proof.
  unfold runMiddleware.
  destruct (next ch ctx ms 0 (-1, w)) as [[[]|err] [i w1]] eqn:E;
    apply next_invariant in E as (_ & _ & Hg); simpl in Hg;
    intros [= <- <-].
  - split; [done|]. by intros ->%negb_true_iff.
  - split; [|done]. eapply grows_trans; [apply Hg | apply grows_console].
Qed.

(** ** The phases of one dispatch *)


Lemma runMiddleware_before ch ms ctx w b w' :
  runMiddleware ch ms ctx w = (b, w') →
  grows before_handler w w' ∧ (b = true → stopped w' = false).
Proof.
  intros [Hg Hb]%runMiddleware_grows. split; [|done].
  eapply grows_mono; [|apply Hg]. intros c Hc. right. left. by exists ch.
Qed.

Lemma runGuards_before gs ctx w b w' :
  runGuards gs ctx w = (b, w') → grows before_handler w w'.
Proof.
  intros Hg%runGuards_from_grows.
  eapply grows_mono; [|apply Hg]. intros c Hc. right. by right.
Qed.

Lemma beforeMessage_before c args w :
  grows before_handler w (runHooks c beforeMessage args w).
Proof.
  eapply grows_mono; [|apply runHooks_grows]. intros k Hk. by left.
Qed.

(** The [catch] block calls on-error hooks and the error handler, and ends
    the callback in [Errored] or with the exception of the error handler. *)
Lemma on_error_grows c err ctx w term tr :
  on_error c err ctx w = (term, tr) →
  term ≠ Rejected ∧ term ≠ Done
  ∧ ∃ w', grows after_handler w w' ∧ tr = trace w'.
Proof.
  unfold on_error.
  assert (grows after_handler w (runHooks c onError (ErrCtxArgs err ctx) w))
    as G6.
  { eapply grows_mono; [|apply runHooks_grows]. intros k Hk. right. by left. }
  destruct (exec (errorHandler c err ctx) _) as [[[]|err'] w7] eqn:E7;
    intros [= <- <-]; (split_and!; [done|done|]); exists w7;
    (split; [|done]);
    (eapply grows_trans; [apply G6|]);
    (eapply grows_trans; [apply grows_called; by right; right|]);
    eapply exec_grows_any, E7.
Qed.

(** A dispatch whose context was built either stops before the handler, and
    is [Rejected], or calls the handler on a context that is not stopped and
    goes on with the hooks and the error handler only, or finds guards that
    cannot be iterated and goes to the on-error hooks and the error handler
    without calling the handler. *)
Lemma on_message_phases c ty p t ctx term tr :
  createContext c ty p = Ok ctx →
  on_message c ty p t = (term, tr) →
  (term = Rejected ∧ ∃ w, grows before_handler (fresh t) w ∧ tr = trace w)
  ∨ (term ≠ Rejected ∧ ∃ w w',
       grows before_handler (fresh t) w ∧ stopped w = false
       ∧ grows after_handler (record (Called Handler) w) w' ∧ tr = trace w')
  ∨ (term ≠ Rejected ∧ term ≠ Done
     ∧ (∃ rt v, routes c !! ty = Some rt ∧ guards rt = NotIterable v)
     ∧ ∃ w w', grows before_handler (fresh t) w
               ∧ grows after_handler w w' ∧ tr = trace w').
Proof.
  intros Hctx. unfold on_message. rewrite Hctx.
  pose proof (beforeMessage_before c (CtxArg ctx) (fresh t)) as G1.
  destruct (runMiddleware GlobalChain _ ctx _) as [accepted w2] eqn:E2.
  apply runMiddleware_before in E2 as [G2 _].
  pose proof (grows_trans _ _ _ _ G1 G2) as G12.
  destruct accepted; simpl; [|intros [= <- <-]; left; eauto].
  destruct (routes c !! ty) as [rt|] eqn:Hrt;
    [|intros [= <- <-]; left; eauto].
  destruct (guards rt) as [gs|v] eqn:Hgs.
  2:{ intros (N1 & N2 & w' & G & ->)%on_error_grows. right. right.
      split_and!; [done|done|by exists rt, v|by exists w2, w']. }
  destruct (runGuards gs ctx w2) as [allowed w3] eqn:E3.
  apply runGuards_before in E3.
  pose proof (grows_trans _ _ _ _ G12 E3) as G13.
  destruct allowed; simpl; [|intros [= <- <-]; left; eauto].
  destruct (runMiddleware RouteChain _ ctx w3) as [passed w4] eqn:E4.
  apply runMiddleware_before in E4 as [G4 S4].
  pose proof (grows_trans _ _ _ _ G13 G4) as G14.
  destruct passed; simpl; [|intros [= <- <-]; left; eauto].
  specialize (S4 eq_refl).
  destruct (exec (route_handler rt ctx) _) as [[[]|err] w5] eqn:E5.
  - intros [= <- <-]. right. left. split; [done|]. eexists w4, _.
    split_and!; [done|done| |done].
    eapply grows_trans; [eapply exec_grows_any, E5|].
    eapply grows_mono; [|apply runHooks_grows]. intros k Hk. by left.
  - intros (N1 & N2 & w' & G & ->)%on_error_grows. right. left.
    split; [done|]. exists w4, w'. split_and!; [done|done| |done].
    eapply grows_trans; [eapply exec_grows_any, E5|apply G].
Qed.

(** ** The exits of the message callback *)

Lemma on_message_global_rejected c ty p t ctx w2 :
  createContext c ty p = Ok ctx →
  runMiddleware GlobalChain (globalMiddleware c) ctx
    (runHooks c beforeMessage (CtxArg ctx) (fresh t)) = (false, w2) →
  on_message c ty p t = (Rejected, trace w2).
Proof. intros Hctx H. unfold on_message. by rewrite Hctx, H. Qed.

Lemma on_message_guards_rejected c ty p t ctx w2 rt gs w3 :
  createContext c ty p = Ok ctx →
  runMiddleware GlobalChain (globalMiddleware c) ctx
    (runHooks c beforeMessage (CtxArg ctx) (fresh t)) = (true, w2) →
  routes c !! ty = Some rt →
  guards rt = GuardList gs →
  runGuards gs ctx w2 = (false, w3) →
  on_message c ty p t = (Rejected, trace w3).
Proof.
  intros Hctx H2 Hrt Hgs H3. unfold on_message.
  by rewrite Hctx, H2, Hrt, Hgs, H3.
Qed.

Lemma on_message_route_rejected c ty p t ctx w2 rt gs w3 w4 :
  createContext c ty p = Ok ctx →
  runMiddleware GlobalChain (globalMiddleware c) ctx
    (runHooks c beforeMessage (CtxArg ctx) (fresh t)) = (true, w2) →
  routes c !! ty = Some rt →
  guards rt = GuardList gs →
  runGuards gs ctx w2 = (true, w3) →
  runMiddleware RouteChain (route_middleware rt) ctx w3 = (false, w4) →
  on_message c ty p t = (Rejected, trace w4).
Proof.
  intros Hctx H2 Hrt Hgs H3 H4. unfold on_message.
  by rewrite Hctx, H2, Hrt, Hgs, H3, H4.
Qed.


(** A rejected message has called nothing but before-message hooks,
    middleware and guards. *)
Lemma rejected_calls c ty p t tr :
  on_message c ty p t = (Rejected, tr) →
  ∃ evs, tr = t ++ evs ∧ ∀ f, Called f ∈ evs → before_handler f.
Proof.
  intros H. destruct (createContext c ty p) as [ctx|e] eqn:Hctx.
  - destruct (on_message_phases _ _ _ _ _ _ _ Hctx H)
      as [(_ & w & (evs & T & _ & C) & ->)|[[? _]|[? _]]]; [|done|done].
    by exists evs.
  - unfold on_message in H. by rewrite Hctx in H.
Qed.

(** ** The single-continuation check *)

Lemma next_raises ch ctx ms k s :
  k ≤ s.1 → next ch ctx ms k s = (Exn DoubleContinuationError, s).
Proof. intros H. destruct ms; simpl; by rewrite bool_decide_eq_true_2. Qed.

Lemma next_again_raises ch ctx ms k s r s1 :
  next ch ctx ms k s = (r, s1) →
  next ch ctx ms k s1 = (Exn DoubleContinuationError, s1).
Proof. intros (_ & H & _)%next_invariant. by apply next_raises. Qed.

Lemma runMiddleware_catches ch ms ctx w e s' :
  next ch ctx ms 0 (-1, w) = (Exn e, s') →
  runMiddleware ch ms ctx w = (false, record (ConsoleError e) s'.2).
Proof. intros H. unfold runMiddleware. rewrite H. by destruct s'. Qed.

(** C1, as the spec states it, fails: the middleware of [core_twice] awaits
    its continuation twice, the second call raises the error, and the
    message is rejected; the on-error hook and the error handler of
    [core_twice] do not run. *)
Lemma C1_counterexample :
  on_message core_twice "x" JS.Undefined [] =
    (Rejected, [Called (Middleware GlobalChain 0);
                ConsoleError DoubleContinuationError])
  ∧ fst (on_message core_twice "x" JS.Undefined []) ≠ Errored.
Proof. split; [by vm_compute|]. vm_compute. discriminate. Qed.

(** C1, amended.  After the continuation for index [k] has been called, in
    any chain and with any outcome, calling it again raises
    DoubleContinuationError and changes nothing.  When that error leaves the
    chain, [runMiddleware] catches it, logs it and reports [false], for the
    global chain and for a route chain alike, and the message is rejected: a
    rejected message runs no on-error hook and no error handler. *)
Theorem C1_double_continuation_rejected :
  (∀ ch ctx ms k s r s1,
     next ch ctx ms k s = (r, s1) →
     next ch ctx ms k s1 = (Exn DoubleContinuationError, s1))
  ∧ (∀ c ty p t ctx s',
       createContext c ty p = Ok ctx →
       next GlobalChain ctx (globalMiddleware c) 0
         (-1, runHooks c beforeMessage (CtxArg ctx) (fresh t))
         = (Exn DoubleContinuationError, s') →
       on_message c ty p t
         = (Rejected, trace s'.2 ++ [ConsoleError DoubleContinuationError]))
  ∧ (∀ c ty p t ctx w2 rt gs w3 s',
       createContext c ty p = Ok ctx →
       runMiddleware GlobalChain (globalMiddleware c) ctx
         (runHooks c beforeMessage (CtxArg ctx) (fresh t)) = (true, w2) →
       routes c !! ty = Some rt →
       guards rt = GuardList gs →
       runGuards gs ctx w2 = (true, w3) →
       next RouteChain ctx (route_middleware rt) 0 (-1, w3)
         = (Exn DoubleContinuationError, s') →
       on_message c ty p t
         = (Rejected, trace s'.2 ++ [ConsoleError DoubleContinuationError]))
  ∧ (∀ c ty p t tr,
       on_message c ty p t = (Rejected, tr) →
       ∃ evs, tr = t ++ evs
         ∧ (Called ErrorHandler ∉ evs)
         ∧ ∀ k, Called (Hook onError k) ∉ evs).
Proof.
  split_and!.
  - apply next_again_raises.
  - intros c ty p t ctx s' Hctx H%runMiddleware_catches.
    by rewrite (on_message_global_rejected _ _ _ _ _ _ Hctx H).
  - intros c ty p t ctx w2 rt gs w3 s' Hctx H2 Hrt Hgs H3
      H%runMiddleware_catches.
    by rewrite (on_message_route_rejected _ _ _ _ _ _ _ _ _ _
                  Hctx H2 Hrt Hgs H3 H).
  - intros c ty p t tr (evs & -> & C)%rejected_calls.
    exists evs. split_and!; [done| |].
    + intros [[k [=]]|[[ch [j [=]]]|[k [=]]]]%C.
    + intros k [[k' [=]]|[[ch [j [=]]]|[k' [=]]]]%C.
Qed.

Lemma C1_witness :
  next GlobalChain sample_context [] 1 (1, fresh [])
    = (Exn DoubleContinuationError, (1, fresh []))
  ∧ fst (on_message core_twice "x" JS.Undefined []) = Rejected
  ∧ fst (on_message core_twice_route "x" JS.Undefined []) = Rejected
  ∧ ∃ evs, snd (on_message core_twice "x" JS.Undefined []) = [] ++ evs
      ∧ (Called ErrorHandler ∉ evs)
      ∧ ∀ k, Called (Hook onError k) ∉ evs.
Proof.
  destruct C1_double_continuation_rejected as (Hagain & Hglobal & Hroute & Hquiet).
  split_and!.
  - eapply (Hagain _ _ _ _ (0, fresh [])). vm_compute. reflexivity.
  - erewrite Hglobal; [reflexivity|reflexivity|]. vm_compute. reflexivity.
  - erewrite Hroute; [reflexivity|reflexivity|..]; vm_compute; reflexivity.
  - apply (Hquiet core_twice "x" JS.Undefined []). vm_compute. reflexivity.
Defined.

(** ** Stopping the context *)











(** ** Containment of exceptions *)





(** What the default error handler does with the value that was thrown,
    and what the error handler of a route with [guards: null] is given. *)
Example default_error_handler_reads_the_message :
  exec (defaultErrorHandler (Thrown JS.Undefined) sample_context) (fresh [])
  = (Exn (Thrown (JS.Str "TypeError: cannot read properties of null")),
     fresh [])
  ∧ exec (defaultErrorHandler (Thrown JS.Null) sample_context) (fresh [])
    = (Exn (Thrown (JS.Str "TypeError: cannot read properties of null")),
       fresh [])
  ∧ exec (defaultErrorHandler (Thrown (JS.Str "text")) sample_context)
      (fresh [])
    = (Ok tt, MkWorld false ∅ [Did "send error"])
  ∧ exec (defaultErrorHandler DoubleContinuationError sample_context)
      (fresh [])
    = (Ok tt, MkWorld false ∅ [Did "send error"]).
Proof. split_and!; by vm_compute. Qed.

Example guards_null_ends_in_the_catch_block :
  on_message core_null_guards "x" JS.Undefined []
  = (Errored, [Called (Hook onError 0); Did "onError hook";
               Called ErrorHandler; Did "send error"])
  ∧ on_message core_null_guards_rethrow "x" JS.Undefined []
    = (Escaped (Thrown (JS.Str "TypeError: guards is not iterable")),
       [Called (Hook onError 0); Did "onError hook"; Called ErrorHandler]).
Proof. split; by vm_compute. Qed.

(** ** The guard evaluator *)

Lemma calls_app evs1 evs2 : calls (evs1 ++ evs2) = calls evs1 ++ calls evs2.
Proof. apply omap_app. Qed.

Lemma calls_nobody evs : (∀ c, Called c ∈ evs → nobody c) → calls evs = [].
Proof.
  induction evs as [|e evs IH]; intros H; [done|].
  destruct e as [c| | |]; simpl;
    try (apply IH; intros c' Hc; by apply (H c'), list_elem_of_further).
  destruct (H c). apply list_elem_of_here.
Qed.

Lemma exec_calls {R} (c : plain R) w r w' :
  exec c w = (r, w') → ∃ evs, trace w' = trace w ++ evs ∧ calls evs = [].
Proof.
  intros (evs & T & _ & C)%exec_grows. exists evs. split; [done|].
  by apply calls_nobody.
Qed.

Lemma guard_allows_calls g ctx k w w' :
  guard_allows g ctx k w w' →
  ∃ evs, trace w' = trace w ++ evs ∧ calls evs = [Guard k].
Proof.
  intros (v & (evs & T & C)%exec_calls & _).
  exists (Called (Guard k) :: evs). split.
  - rewrite T. simpl. by rewrite <- app_assoc.
  - simpl. by rewrite C.
Qed.

Lemma guard_rejects_calls g ctx k w w' :
  guard_rejects g ctx k w w' →
  ∃ evs, trace w' = trace w ++ evs ∧ calls evs = [Guard k].
Proof.
  intros [(v & (evs & T & C)%exec_calls & _)
         |(e & w1 & (evs & T & C)%exec_calls & ->)].
  - exists (Called (Guard k) :: evs). split.
    + rewrite T. simpl. by rewrite <- app_assoc.
    + simpl. by rewrite C.
  - exists (Called (Guard k) :: evs ++ [ConsoleError e]). split.
    + simpl. rewrite T. simpl. by rewrite <- !app_assoc.
    + simpl. rewrite calls_app, C. done.
Qed.

Lemma all_allow_calls ctx k gs w w' :
  all_allow ctx k gs w w' →
  ∃ evs, trace w' = trace w ++ evs
         ∧ calls evs = Guard <$> seq k (length gs).
Proof.
  induction 1 as [k w|k g gs w w1 w2 Hg _ (evs2 & T2 & C2)].
  - exists []. by rewrite app_nil_r.
  - destruct (guard_allows_calls _ _ _ _ _ Hg) as (evs1 & T1 & C1).
    exists (evs1 ++ evs2). split.
    + by rewrite T2, T1, app_assoc.
    + by rewrite calls_app, C1, C2.
Qed.

Lemma all_allow_run ctx k gs w w' rest :
  all_allow ctx k gs w w' →
  runGuards_from k (gs ++ rest) ctx w
  = runGuards_from (k + length gs) rest ctx w'.
Proof.
  induction 1 as [k w|k g gs w w1 w2 (v & E & Hv) _ IH]; simpl.
  - by rewrite Nat.add_0_r.
  - rewrite E, Hv. simpl. rewrite IH. f_equal. lia.
Qed.

Lemma guard_rejects_run g ctx k w w' rest :
  guard_rejects g ctx k w w' →
  runGuards_from k (g :: rest) ctx w = (false, w').
Proof.
  intros [(v & E & Hv)|(e & w1 & E & ->)]; simpl; rewrite E; [|done].
  by rewrite Hv.
Qed.

(** C7.  The guards are evaluated in order.  When every guard allows, the
    evaluator reports [true] after calling each of them once, in order.
    When the guards before index [i] allow and guard [i] rejects, by its
    result or by throwing, the evaluator reports [false], the guards called
    are those of index [0] to [i] and no other, and the exception is logged
    and goes no further.  A message whose list of guards reports [false] is
    rejected in the state the evaluator left: no route middleware and no
    handler runs for it. *)
Theorem C7_guards_in_order :
  (∀ gs ctx w w',
     all_allow ctx 0 gs w w' →
     runGuards gs ctx w = (true, w')
     ∧ ∃ evs, trace w' = trace w ++ evs
              ∧ calls evs = Guard <$> seq 0 (length gs))
  ∧ (∀ gs1 g gs2 ctx w w1 w2,
       all_allow ctx 0 gs1 w w1 →
       guard_rejects g ctx (length gs1) w1 w2 →
       runGuards (gs1 ++ g :: gs2) ctx w = (false, w2)
       ∧ ∃ evs, trace w2 = trace w ++ evs
                ∧ calls evs = Guard <$> seq 0 (S (length gs1)))
  ∧ (∀ c ty p t ctx w2 rt gs w3,
       createContext c ty p = Ok ctx →
       runMiddleware GlobalChain (globalMiddleware c) ctx
         (runHooks c beforeMessage (CtxArg ctx) (fresh t)) = (true, w2) →
       routes c !! ty = Some rt →
       guards rt = GuardList gs →
       runGuards gs ctx w2 = (false, w3) →
       on_message c ty p t = (Rejected, trace w3)).
Proof.
  split_and!.
  - intros gs ctx w w' H. split; [|apply (all_allow_calls _ _ _ _ _ H)].
    unfold runGuards. rewrite <- (app_nil_r gs) at 1.
    by rewrite (all_allow_run _ _ _ _ _ [] H).
  - intros gs1 g gs2 ctx w w1 w2 H Hg. split.
    + unfold runGuards. rewrite (all_allow_run _ _ _ _ _ _ H).
      by apply guard_rejects_run.
    + destruct (all_allow_calls _ _ _ _ _ H) as (evs1 & T1 & C1).
      destruct (guard_rejects_calls _ _ _ _ _ Hg) as (evs2 & T2 & C2).
      exists (evs1 ++ evs2). split; [by rewrite T2, T1, app_assoc|].
      by rewrite calls_app, C1, C2, seq_S, fmap_app.
  - apply on_message_guards_rejected.
Qed.

Lemma C7_witness :
  (runGuards [allow; allow] sample_context (fresh []) =
     (true, MkWorld false ∅ [Called (Guard 0); Called (Guard 1)])
   ∧ ∃ evs, [Called (Guard 0); Called (Guard 1)] = [] ++ evs
            ∧ calls evs = Guard <$> seq 0 2)
  ∧ (runGuards ([allow] ++ throwing_guard :: [allow; deny])
       sample_context (fresh []) =
       (false, MkWorld false ∅ [Called (Guard 0); Called (Guard 1);
                                ConsoleError boom])
     ∧ ∃ evs, [Called (Guard 0); Called (Guard 1); ConsoleError boom]
                = [] ++ evs
              ∧ calls evs = Guard <$> seq 0 2)
  ∧ on_message (core_guarded [allow; deny; allow]) "secure.action"
      JS.Undefined []
    = (Rejected, [Called (Guard 0); Called (Guard 1)]).
Proof.
  destruct C7_guards_in_order as (Hall & Hreject & Hdispatch).
  assert (∀ k w, guard_allows allow sample_context k w
                   (record (Called (Guard k)) w)) as Hallow.
  { intros k w. by exists (JS.Bool true). }
  split; [|split].
  - apply (Hall [allow; allow] sample_context (fresh [])).
    eapply all_allow_cons; [apply Hallow|].
    eapply all_allow_cons; [apply Hallow|]. apply all_allow_nil.
  - apply (Hreject [allow] throwing_guard [allow; deny] sample_context
             (fresh []) (MkWorld false ∅ [Called (Guard 0)])).
    + eapply all_allow_cons; [apply Hallow|]. apply all_allow_nil.
    + right. eexists _, _. split; reflexivity.
  - apply (Hdispatch (core_guarded [allow; deny; allow]) "secure.action"
             JS.Undefined [] (MkContext "secure.action" JS.Undefined
               JS.Undefined JS.Undefined JS.Undefined "local" JS.Undefined
               JS.Undefined) (fresh [])
             (MkRoute (GuardList [allow; deny; allow]) [second_middleware]
                (fun _ => Effect "handler" (Return tt)))
             [allow; deny; allow]
             (MkWorld false ∅ [Called (Guard 0); Called (Guard 1)]));
      by vm_compute.
Defined.

(** ** What counts as allowed *)





Example guard_returning_one_rejects :
  runGuards [fun _ => Return (JS.Num 1)] sample_context (fresh [])
  = (false, MkWorld false ∅ [Called (Guard 0)]).
Proof. reflexivity. Qed.

Example guard_returning_text_rejects :
  runGuards [fun _ => Return (JS.Str "yes")] sample_context (fresh [])
  = (false, MkWorld false ∅ [Called (Guard 0)]).
Proof. reflexivity. Qed.

Example guard_returning_allowed_one_allows :
  runGuards [fun _ => Return (JS.Obj {["allowed" := JS.Num 1]})]
    sample_context (fresh [])
  = (true, MkWorld false ∅ [Called (Guard 0)]).
Proof. by vm_compute. Qed.

(** ** Route registration *)


Lemma routes_set_routes rt c : routes (set_routes rt c) = rt.
Proof. done. Qed.

Lemma valid_or_invalid r : valid_entry r ∨ invalid_entry r.
Proof.
  destruct r as [[s|] gs ms [|v|h]]; unfold valid_entry, invalid_entry; simpl;
    eauto 6.
  destruct (decide (s = "")) as [->|Hs]; eauto 7.
Qed.

Lemma valid_not_invalid r : valid_entry r → ¬ invalid_entry r.
Proof.
  intros (s & h & Es & Hs & Eh) [E|[E|[E|[v E]]]]; congruence.
Qed.

Lemma register_invalid r rest rt :
  invalid_entry r → ∃ e, register_each (r :: rest) rt = (Raised e, rt).
Proof.
  intros [E|[E|[E|[v E]]]]; simpl; rewrite E; simpl; eauto.
  - rewrite orb_true_r. eauto.
  - destruct (no_event (event r) || negb (JS.truthy v)); eauto.
Qed.

Lemma register_valid r rest rt s h :
  event r = Some s → s ≠ "" → entry_handler r = HandlerFunction h →
  register_each (r :: rest) rt = register_each rest (<[s := stored r h]> rt).
Proof.
  intros Es Hs Eh. simpl. rewrite Es, Eh. simpl.
  by apply String.eqb_neq in Hs as ->.
Qed.

Lemma register_each_app pre rest rt :
  Forall valid_entry pre →
  fst (register_each pre rt) = Registered
  ∧ register_each (pre ++ rest) rt
    = register_each rest (snd (register_each pre rt)).
Proof.
  intros H. revert rt.
  induction H as [|r pre (s & h & Es & Hs & Eh) _ IH]; intros rt; [done|].
  rewrite <- app_comm_cons, !(register_valid _ _ _ _ _ Es Hs Eh). apply IH.
Qed.


Lemma register_each_other l rt s :
  Forall valid_entry l →
  (∀ r, r ∈ l → event r ≠ Some s) →
  snd (register_each l rt) !! s = rt !! s.
Proof.
  intros H. revert rt.
  induction H as [|r l (s' & h & Es & Hs & Eh) _ IH]; intros rt Hne; [done|].
  rewrite (register_valid _ _ _ _ _ Es Hs Eh).
  rewrite IH by (intros r' Hr'; by apply Hne, list_elem_of_further).
  apply lookup_insert_ne. intros ->.
  by apply (Hne r (list_elem_of_here _ _)).
Qed.

Lemma register_each_last p1 r p2 rt s h :
  Forall valid_entry (p1 ++ r :: p2) →
  event r = Some s → entry_handler r = HandlerFunction h →
  (∀ r', r' ∈ p2 → event r' ≠ Some s) →
  snd (register_each (p1 ++ r :: p2) rt) !! s = Some (stored r h).
Proof.
  intros [H1 [Hr H2]%Forall_cons]%Forall_app Es Eh Hne.
  destruct (register_each_app p1 (r :: p2) rt H1) as [_ ->].
  destruct Hr as (s' & h' & Es' & Hs & Eh').
  rewrite (register_valid _ _ _ _ _ Es' Hs Eh').
  rewrite register_each_other by done.
  assert (s' = s) as -> by congruence. assert (h' = h) as -> by congruence.
  apply lookup_insert_eq.
Qed.



(** C10.  When the entry at index [k] is the first invalid one, the call
    raises, and the route table is left as registering the entries before
    [k] alone leaves it: each of them has been inserted, and a lookup of its
    event type finds its handler, with the guards and the middleware it
    wrote, each the empty list when it wrote none, unless a later entry
    before [k] has the same event type. *)
Theorem C10_registration_not_atomic pre bad post c :
  Forall valid_entry pre →
  invalid_entry bad →
  (∃ e, registerRoutes (RouteList (pre ++ bad :: post)) c
        = (Raised e, snd (registerRoutes (RouteList pre) c)))
  ∧ fst (registerRoutes (RouteList pre) c) = Registered
  ∧ ∀ p1 r p2 s h,
      pre = p1 ++ r :: p2 →
      event r = Some s → entry_handler r = HandlerFunction h →
      (∀ r', r' ∈ p2 → event r' ≠ Some s) →
      routes (snd (registerRoutes (RouteList (pre ++ bad :: post)) c)) !! s
      = Some (MkRoute (default (GuardList []) (entry_guards r))
                      (default [] (entry_middleware r)) h).
Proof.
  intros Hpre Hbad. unfold registerRoutes.
  destruct (register_each_app pre (bad :: post) (routes c) Hpre) as [Hr ->].
  destruct (register_each pre (routes c)) as [res rt] eqn:E.
  cbn [fst snd] in *.
  destruct (register_invalid bad post rt Hbad) as [e ->]. cbn [fst snd].
  split_and!; [by exists e|done|].
  intros p1 r p2 s h -> Es Eh Hne.
  pose proof (register_each_last p1 r p2 (routes c) s h Hpre Es Eh Hne) as H.
  by rewrite E in H.
Qed.

Lemma C10_witness :
  (∃ e, registerRoutes
          (RouteList ([ping_entry; chat_entry]
                      ++ text_handler_entry :: [ping_entry])) new_core
        = (Raised e,
           snd (registerRoutes (RouteList [ping_entry; chat_entry]) new_core)))
  ∧ fst (registerRoutes (RouteList [ping_entry; chat_entry]) new_core)
    = Registered
  ∧ ∀ p1 r p2 s h,
      [ping_entry; chat_entry] = p1 ++ r :: p2 →
      event r = Some s → entry_handler r = HandlerFunction h →
      (∀ r', r' ∈ p2 → event r' ≠ Some s) →
      routes (snd (registerRoutes
                     (RouteList ([ping_entry; chat_entry]
                                 ++ text_handler_entry :: [ping_entry]))
                     new_core)) !! s
      = Some (MkRoute (default (GuardList []) (entry_guards r))
                      (default [] (entry_middleware r)) h).
Proof.
  apply (C10_registration_not_atomic [ping_entry; chat_entry]
           text_handler_entry [ping_entry] new_core).
  - repeat constructor; eexists _, _; (split_and!; [reflexivity|done|reflexivity]).
  - do 3 right. by eexists.
Defined.

Example registration_fails_half_way :
  let c := snd (registerRoutes
                  (RouteList [ping_entry; text_handler_entry; chat_entry])
                  new_core) in
  fst (registerRoutes
         (RouteList [ping_entry; text_handler_entry; chat_entry]) new_core)
  = Raised (HandlerNotFunction "x")
  ∧ routes c !! "ping" = Some (MkRoute (GuardList []) [] pong)
  ∧ routes c !! "chat" = None.
Proof. split_and!; by vm_compute. Qed.

(** ** The scenarios of the spec *)

Example scenario_ping_pong :
  on_message (snd (registerRoutes (RouteList [ping_entry]) new_core))
    "ping" JS.Undefined []
  = (Done, [Called Handler; Did "send pong"]).
Proof. by vm_compute. Qed.

Example scenario_no_route :
  on_message core_boom "unknown" JS.Undefined [] = (Rejected, []).
Proof. by vm_compute. Qed.

Example scenario_handler_throws :
  on_message core_boom "x" JS.Undefined []
  = (Errored, [Called Handler; Called (Hook onError 0); Did "onError hook";
               Called ErrorHandler; Did "send error"]).
Proof. by vm_compute. Qed.

Example scenario_last_registration_wins :
  let first := MkRouteEntry (Some "dup") None None
                 (HandlerFunction (fun _ => Effect "first" (Return tt))) in
  let second := MkRouteEntry (Some "dup") None None
                  (HandlerFunction (fun _ => Effect "second" (Return tt))) in
  on_message
    (snd (registerRoutes (RouteList [second])
            (snd (registerRoutes (RouteList [first]) new_core))))
    "dup" JS.Undefined []
  = (Done, [Called Handler; Did "second"]).
Proof. by vm_compute. Qed.

(** ** The local event bus *)

Module BusProperties.
Import Bus.
#[local] Open Scope nat_scope.


Lemma invoked_app evs1 evs2 :
  invoked (evs1 ++ evs2) = invoked evs1 ++ invoked evs2.
Proof. apply omap_app. Qed.

Lemma invoked_cons cb data evs :
  invoked (Invoked cb data :: evs) = cb :: invoked evs.
Proof. done. Qed.

Lemma on_transport_off ev cb st :
  transport_off (on ev cb st) = transport_off st.
Proof.
  unfold on. destruct (eventListeners st !! ev) eqn:E; simpl.
  - by rewrite E.
  - by rewrite lookup_insert_eq.
Qed.

Lemma splice_transport_off a cb st :
  transport_off (splice a cb st) = transport_off st.
Proof. unfold splice. by repeat case_match. Qed.

Lemma off_transport_off ev cb st :
  transport_off (off ev cb st) = transport_off st.
Proof.
  unfold off. repeat case_match; simpl; by rewrite ?splice_transport_off.
Qed.

Lemma off_result_returns ev cb st :
  off_returns ev cb st → off_result ev cb st = Ok tt.
Proof.
  intros H. unfold off_result.
  destruct (eventListeners st !! ev); [|done].
  destruct (transport_off st) as [f|] eqn:E; [|done]. by apply H.
Qed.

Lemma off_result_throws ev cb e st a :
  eventListeners st !! ev = Some a →
  off_throws ev cb e st → off_result ev cb st = Exn e.
Proof.
  intros Ha (f & Hf & He). unfold off_result. by rewrite Ha, Hf.
Qed.

Lemma off_result_no_transport ev cb st :
  transport_off st = None → off_result ev cb st = Ok tt.
Proof. intros H. apply off_result_returns. intros f t. by rewrite H. Qed.

(** A listener ends as its script says when no [off] it calls can throw:
    when the transport has no [off], or when it calls none. *)
Lemma run_result c st :
  transport_off st = None ∨ inert c → (run c st).1 = result_of c.
Proof.
  revert st. induction c as [|e|l k IH|ev cb k IH|ev cb k IH]; intros st H;
    simpl; try done.
  - apply IH. destruct H; [by left|by right].
  - apply IH. destruct H as [H|[]]. left. by rewrite on_transport_off.
  - destruct H as [H|[]]. rewrite off_result_no_transport by done.
    apply IH. left. by rewrite off_transport_off.
Qed.

Lemma splice_trace a cb st : trace (splice a cb st) = trace st.
Proof. unfold splice. by repeat case_match. Qed.

Lemma off_trace ev cb st :
  ∃ evs, trace (off ev cb st) = trace st ++ evs ∧ invoked evs = [].
Proof.
  unfold off. destruct (eventListeners st !! ev) as [a|].
  - destruct (transport_off st); simpl; rewrite splice_trace.
    + by exists [Notified ev cb].
    + exists []. by rewrite app_nil_r.
  - exists []. by rewrite app_nil_r.
Qed.

Lemma run_trace c st :
  ∃ evs, trace (run c st).2 = trace st ++ evs ∧ invoked evs = [].
Proof.
  revert st. induction c as [|e|l k IH|ev cb k IH|ev cb k IH]; intros st;
    simpl.
  - exists []. by rewrite app_nil_r.
  - exists []. by rewrite app_nil_r.
  - destruct (IH (record (Did l) st)) as (evs & T & I).
    exists (Did l :: evs). split; [|done].
    rewrite T. simpl. by rewrite <- app_assoc.
  - destruct (IH (on ev cb st)) as (evs & T & I). exists evs.
    split; [|done]. rewrite T. f_equal. unfold on.
    destruct (eventListeners st !! ev); simpl;
      [|rewrite lookup_insert_eq]; simpl; try done.
    by destruct (eventListeners st !! ev).
  - destruct (off_trace ev cb st) as (evs0 & T0 & I0).
    destruct (off_result ev cb st) as [[]|e]; simpl; [|by exists evs0].
    destruct (IH (off ev cb st)) as (evs & T & I). exists (evs0 ++ evs).
    split; [by rewrite T, T0, app_assoc|].
    by rewrite invoked_app, I0, I.
Qed.

Lemma run_inert c st :
  inert c → same_registry st (run c st).2.
Proof.
  revert st. induction c as [|e|l k IH|ev cb k IH|ev cb k IH]; intros st;
    simpl; try done.
  intros H. by destruct (IH (record (Did l) st) H) as (? & ? & ?).
Qed.

Lemma inert_harmless c st :
  inert c → result_of c = Ok tt → harmless c st.
Proof.
  intros Hi Hr st1 (Ha & He & Ht). rewrite run_result by (by right).
  split; [done|].
  destruct (run_inert c st1 Hi) as (Ha' & He' & Ht'). split_and!; congruence.
Qed.

Lemma indexOf_middle cb l1 l2 :
  cb ∉ l1 → indexOf cb (l1 ++ cb :: l2) = Some (length l1).
Proof.
  induction l1 as [|x l1 IH]; intros H; simpl.
  - by rewrite bool_decide_eq_true_2.
  - apply not_elem_of_cons in H as [Hx H].
    rewrite bool_decide_eq_false_2 by done. by rewrite IH.
Qed.

Lemma indexOf_absent cb l : cb ∉ l → indexOf cb l = None.
Proof.
  induction l as [|x l IH]; intros H; simpl; [done|].
  apply not_elem_of_cons in H as [Hx H].
  rewrite bool_decide_eq_false_2 by done. by rewrite IH.
Qed.

(** The iterator walks through a run of harmless listeners and invokes
    each of them, in order. *)
Lemma iterate_segment body data a fuel seg :
  ∀ done rest st,
    arrays st !! a = Some (done ++ seg ++ rest) →
    (∀ cb, cb ∈ seg → harmless (body cb data) st) →
    ∃ st' evs,
      iterate body (length seg + fuel) a data (length done) st
      = iterate body fuel a data (length done + length seg) st'
      ∧ same_registry st st'
      ∧ trace st' = trace st ++ evs ∧ invoked evs = seg.
Proof.
  induction seg as [|cb seg IH]; intros done rest st Harr Hh.
  - exists st, []. simpl. rewrite Nat.add_0_r, app_nil_r. by repeat split.
  - simpl. rewrite Harr. simpl. rewrite list_lookup_middle by done.
    destruct (Hh cb (list_elem_of_here _ _) (record (Invoked cb data) st))
      as [Hok (Ha & He & Ht)]; [done|].
    destruct (run_trace (body cb data) (record (Invoked cb data) st))
      as (evs1 & T1 & I1).
    destruct (run (body cb data) (record (Invoked cb data) st))
      as [r st1] eqn:E. simpl in *. subst r.
    destruct (IH (done ++ [cb]) rest st1)
      as (st' & evs & It & (Ha' & He' & Ht') & T & I).
    { rewrite Ha, <- app_assoc. done. }
    { intros cb' Hcb' st2 (Ha2 & He2 & Ht2).
      destruct (Hh cb' (list_elem_of_further _ _ _ Hcb') st2)
        as [? (? & ? & ?)].
      - split_and!; congruence.
      - split; [done|]. split_and!; congruence. }
    exists st', (Invoked cb data :: evs1 ++ evs).
    rewrite length_app in It. simpl in It.
    replace (length done + 1)%nat with (S (length done)) in It by lia.
    replace (length done + S (length seg))%nat
      with (S (length done) + length seg)%nat by lia.
    split_and!; [done|split_and!; congruence| |].
    + rewrite T, T1. simpl. by rewrite <- !app_assoc.
    + simpl. unfold invoked in *. by rewrite omap_app, I1, I.
Qed.

Lemma iterate_end body data a fuel st l :
  arrays st !! a = Some l →
  iterate body (S fuel) a data (length l) st = Some (Ok tt, st).
Proof.
  intros H. simpl. rewrite H. simpl.
  by rewrite lookup_ge_None_2.
Qed.

Lemma iterate_prefix body data a fuel seg rest st :
  arrays st !! a = Some (seg ++ rest) →
  (∀ cb, cb ∈ seg → harmless (body cb data) st) →
  ∃ st' evs,
    iterate body (length seg + fuel) a data 0 st
    = iterate body fuel a data (length seg) st'
    ∧ same_registry st st'
    ∧ trace st' = trace st ++ evs ∧ invoked evs = seg.
Proof. apply (iterate_segment body data a fuel seg [] rest st). Qed.

Lemma emit_all_harmless body ev data st a l fuel :
  eventListeners st !! ev = Some a →
  arrays st !! a = Some l →
  (∀ cb, cb ∈ l → harmless (body cb data) st) →
  length l < fuel →
  ∃ st' evs,
    emit body fuel ev data st = Some (Ok tt, st')
    ∧ same_registry st st'
    ∧ trace st' = trace st ++ evs ∧ invoked evs = l.
Proof.
  intros Ha Hl Hh Hfuel. unfold emit, internalEmit. rewrite Ha.
  replace fuel with (length l + S (fuel - length l - 1))%nat by lia.
  destruct (iterate_prefix body data a (S (fuel - length l - 1)) l [] st)
    as (st' & evs & -> & (Ha' & He' & Ht') & T & I).
  { by rewrite app_nil_r. }
  { done. }
  rewrite iterate_end by congruence.
  exists st', evs. by repeat split.
Qed.

Lemma emit_until_throw body ev data st a pre c post e fuel :
  eventListeners st !! ev = Some a →
  arrays st !! a = Some (pre ++ c :: post) →
  (∀ cb, cb ∈ pre → harmless (body cb data) st) →
  transport_off st = None ∨ inert (body c data) →
  result_of (body c data) = Exn e →
  length pre < fuel →
  ∃ st' evs,
    emit body fuel ev data st = Some (Exn e, st')
    ∧ trace st' = trace st ++ evs ∧ invoked evs = pre ++ [c].
Proof.
  intros Ha Hl Hh Hq Hc Hfuel. unfold emit, internalEmit. rewrite Ha.
  replace fuel with (length pre + S (fuel - length pre - 1))%nat by lia.
  destruct (iterate_prefix body data a (S (fuel - length pre - 1))
              pre (c :: post) st)
    as (st' & evs & -> & (Ha' & He' & Ht') & T & I); [done|done|].
  simpl. rewrite Ha', Hl. simpl. rewrite list_lookup_middle by done.
  assert ((run (body c data) (record (Invoked c data) st')).1
          = result_of (body c data)) as Hr.
  { apply run_result. destruct Hq as [Hq|Hq]; [left|by right].
    simpl. congruence. }
  destruct (run_trace (body c data) (record (Invoked c data) st'))
    as (evs1 & T1 & I1).
  destruct (run (body c data) (record (Invoked c data) st'))
    as [r st2] eqn:E. simpl in *. rewrite Hc in Hr. subst r.
  exists st2, (evs ++ Invoked c data :: evs1). split_and!; [done| |].
  - rewrite T1, T. simpl. by rewrite <- !app_assoc.
  - by rewrite invoked_app, invoked_cons, I, I1.
Qed.

(** C4, as the spec states it, fails: the first listener throws, the
    exception comes out of [emit], and the second listener is not
    invoked. *)
Lemma C4_counterexample :
  listeners "e" (register_all "e" [thrower; 1%nat]) = [thrower; 1%nat]
  ∧ emit sample_body 10 "e" (JS.Str "boom")
      (register_all "e" [thrower; 1%nat])
    = Some (Exn boom,
            MkState [[thrower; 1%nat]] {["e" := 0%nat]}
                    [Invoked thrower (JS.Str "boom")] None).
Proof. split; by vm_compute. Qed.

(** C4, amended.  When the listeners of an event leave the registry alone,
    [emit] invokes them synchronously in registration order, as long as
    they return.  An exception thrown by a listener is not caught: it
    comes out of [emit], and the listeners after the one that threw are
    not invoked.  The listener that throws may have registered and removed
    listeners before, on a bus whose transport has no [off] that could
    throw first. *)
Theorem C4_emit_in_order_until_throw body ev data st a pre rest fuel :
  eventListeners st !! ev = Some a →
  arrays st !! a = Some (pre ++ rest) →
  (∀ cb, cb ∈ pre →
     inert (body cb data) ∧ result_of (body cb data) = Ok tt) →
  length (pre ++ rest) < fuel →
  (rest = [] →
   ∃ st' evs,
     emit body fuel ev data st = Some (Ok tt, st')
     ∧ trace st' = trace st ++ evs ∧ invoked evs = pre)
  ∧ (∀ c post e,
       rest = c :: post → result_of (body c data) = Exn e →
       transport_off st = None ∨ inert (body c data) →
       ∃ st' evs,
         emit body fuel ev data st = Some (Exn e, st')
         ∧ trace st' = trace st ++ evs ∧ invoked evs = pre ++ [c]).
Proof.
  intros Ha Hl Hpre Hfuel.
  assert (∀ cb, cb ∈ pre → harmless (body cb data) st) as Hh.
  { intros cb [Hi Hr]%Hpre. by apply inert_harmless. }
  split.
  - intros ->. rewrite app_nil_r in *.
    destruct (emit_all_harmless body ev data st a pre fuel Ha Hl Hh Hfuel)
      as (st' & evs & E & _ & T & I).
    by exists st', evs.
  - intros c post e -> Hc Hq. rewrite length_app in Hfuel.
    eapply emit_until_throw; [done..|lia].
Qed.

Lemma C4_witness :
  ((([] : list listener) = [] →
    ∃ st' evs,
      emit sample_body 4 "e" JS.Null (register_all "e" [1; 2; 3]%nat)
      = Some (Ok tt, st')
      ∧ trace st' = trace (register_all "e" [1; 2; 3]%nat) ++ evs
      ∧ invoked evs = [1; 2; 3]%nat)
   ∧ (∀ c post e,
        [] = c :: post → result_of (sample_body c JS.Null) = Exn e →
        transport_off (register_all "e" [1; 2; 3]%nat) = None
        ∨ inert (sample_body c JS.Null) →
        ∃ st' evs,
          emit sample_body 4 "e" JS.Null (register_all "e" [1; 2; 3]%nat)
          = Some (Exn e, st')
          ∧ trace st' = trace (register_all "e" [1; 2; 3]%nat) ++ evs
          ∧ invoked evs = [1; 2; 3]%nat ++ [c]))
  ∧ (∃ st' evs,
       emit sample_body 4 "e" JS.Null
         (register_with mock_off "e" [1; thrower; 3]%nat)
       = Some (Exn (Thrown JS.Null), st')
       ∧ trace st'
         = trace (register_with mock_off "e" [1; thrower; 3]%nat) ++ evs
       ∧ invoked evs = [1%nat] ++ [thrower]).
Proof.
  split.
  - apply (C4_emit_in_order_until_throw sample_body "e" JS.Null
             (register_all "e" [1; 2; 3]%nat) 0%nat [1; 2; 3]%nat [] 4%nat).
    + reflexivity.
    + reflexivity.
    + intros cb Hcb.
      repeat (apply elem_of_cons in Hcb as [->|Hcb]; [by vm_compute|]).
      by apply elem_of_nil in Hcb.
    + simpl. lia.
  - destruct (C4_emit_in_order_until_throw sample_body "e" JS.Null
                (register_with mock_off "e" [1; thrower; 3]%nat) 0%nat
                [1%nat] [thrower; 3%nat] 4%nat) as [_ Hthrow].
    + reflexivity.
    + reflexivity.
    + intros cb Hcb.
      repeat (apply elem_of_cons in Hcb as [->|Hcb]; [by vm_compute|]).
      by apply elem_of_nil in Hcb.
    + simpl. lia.
    + apply (Hthrow thrower [3%nat] (Thrown JS.Null)).
      * reflexivity.
      * reflexivity.
      * right. exact I.
Defined.

Example emit_stops_at_the_thrower :
  ∃ st' evs,
    emit sample_body 4 "e" JS.Null (register_all "e" [1%nat; thrower; 3%nat])
    = Some (Exn (Thrown JS.Null), st')
    ∧ trace st' = [] ++ evs ∧ invoked evs = [1%nat; thrower].
Proof. eexists _, _. split_and!; by vm_compute. Qed.

Lemma iterate_step body fuel a data idx st cb :
  arrays st !! a ≫= (.!! idx) = Some cb →
  iterate body (S fuel) a data idx st
  = match run (body cb data) (record (Invoked cb data) st) with
    | (Ok _, st') => iterate body fuel a data (S idx) st'
    | (Exn e, st') => Some (Exn e, st')
    end.
Proof. intros H. simpl. by rewrite H. Qed.

Lemma splice_removes x st a l1 l2 :
  arrays st !! a = Some (l1 ++ x :: l2) →
  x ∉ l1 →
  splice a x st
  = MkState (<[a := l1 ++ l2]> (arrays st)) (eventListeners st) (trace st)
            (transport_off st).
Proof.
  intros Hl Hx. unfold splice.
  by rewrite Hl, indexOf_middle, delete_middle.
Qed.

Lemma splice_absent x st a l :
  arrays st !! a = Some l → x ∉ l → splice a x st = st.
Proof. intros Hl Hx. unfold splice. by rewrite Hl, indexOf_absent. Qed.

(** What [off] leaves when the listener is registered, and when it is
    not. *)
Lemma off_removes ev x st a l1 l2 :
  eventListeners st !! ev = Some a →
  arrays st !! a = Some (l1 ++ x :: l2) →
  x ∉ l1 →
  arrays (off ev x st) = <[a := l1 ++ l2]> (arrays st)
  ∧ eventListeners (off ev x st) = eventListeners st
  ∧ transport_off (off ev x st) = transport_off st.
Proof.
  intros Ha Hl Hx. unfold off. rewrite Ha.
  rewrite (splice_removes _ _ _ _ _ Hl Hx).
  by destruct (transport_off st).
Qed.

Lemma off_absent ev x st a l :
  eventListeners st !! ev = Some a →
  arrays st !! a = Some l →
  x ∉ l →
  same_registry st (off ev x st).
Proof.
  intros Ha Hl Hx. unfold off. rewrite Ha.
  rewrite (splice_absent _ _ _ _ Hl Hx).
  by destruct (transport_off st).
Qed.

(** An emission during which the listener [r] removes the listener [x]
    that is registered after it, and the [off] of the transport, if there
    is one, returns. *)
Lemma emit_with_removal body ev data st a pre r mid x post k fuel :
  eventListeners st !! ev = Some a →
  arrays st !! a = Some (pre ++ r :: mid ++ x :: post) →
  body r data = Off ev x k → inert k → result_of k = Ok tt →
  x ∉ pre ++ r :: mid →
  (∀ cb, cb ∈ pre ++ mid ++ post →
     inert (body cb data) ∧ result_of (body cb data) = Ok tt) →
  length (pre ++ r :: mid ++ x :: post) ≤ fuel →
  off_returns ev x st →
  ∃ st' evs,
    emit body fuel ev data st = Some (Ok tt, st')
    ∧ trace st' = trace st ++ evs
    ∧ invoked evs = pre ++ r :: mid ++ post
    ∧ eventListeners st' !! ev = Some a
    ∧ arrays st' !! a = Some (pre ++ r :: mid ++ post)
    ∧ transport_off st' = transport_off st.
Proof.
  intros Ha Hl Hr Hk Hkr Hx Hothers Hfuel Hquiet.
  assert (∀ st0 cb, cb ∈ pre ++ mid ++ post → harmless (body cb data) st0)
    as Hh.
  { intros st0 cb [Hi Ho]%Hothers. by apply inert_harmless. }
  unfold emit, internalEmit. rewrite Ha.
  rewrite !length_app in Hfuel. simpl in Hfuel.
  rewrite length_app in Hfuel. simpl in Hfuel.
  set (extra := fuel - length pre - length mid - length post - 2).
  replace fuel
    with (length pre + S (length (mid ++ post) + S extra))
    by (rewrite length_app; lia).
  destruct (iterate_prefix body data a (S (length (mid ++ post) + S extra))
              pre (r :: mid ++ x :: post) st)
    as (st1 & evs1 & -> & (Ha1 & He1 & Ht1) & T1 & I1); [done| |].
  { intros cb Hcb. apply Hh, elem_of_app. by left. }
  rewrite (iterate_step _ _ _ _ _ _ r)
    by (rewrite Ha1, Hl; simpl; by apply list_lookup_middle).
  rewrite Hr. cbn [run].
  rewrite off_result_returns
    by (intros f t Hf; apply Hquiet; simpl in Hf; congruence).
  destruct (off_removes ev x (record (Invoked r data) st1) a
              (pre ++ r :: mid) post) as (Ha0 & He0 & Ht0);
    [simpl; congruence|simpl; rewrite Ha1, Hl; by rewrite <- app_assoc
    |done|].
  destruct (off_trace ev x (record (Invoked r data) st1))
    as (evs0 & T0 & I0).
  set (s2 := off ev x _) in *.
  destruct (run_inert k s2 Hk) as (Ha2 & He2 & Ht2).
  pose proof (run_result k s2 (or_intror Hk)) as Hres. rewrite Hkr in Hres.
  destruct (run_trace k s2) as (evsk & Tk & Ik).
  destruct (run k s2) as [rk st2] eqn:Ek. simpl in Hres, Ha2, He2, Ht2, Tk.
  subst rk.
  assert (arrays st2 !! a = Some ((pre ++ [r]) ++ (mid ++ post) ++ []))
    as Hl2.
  { rewrite Ha2, Ha0. simpl.
    rewrite list_lookup_insert_eq
      by (rewrite Ha1; by eapply lookup_lt_Some).
    by rewrite app_nil_r, <- !app_assoc. }
  destruct (iterate_segment body data a (S extra) (mid ++ post)
              (pre ++ [r]) [] st2 Hl2)
    as (st3 & evs3 & It & (Ha3 & He3 & Ht3) & T3 & I3).
  { intros cb Hcb. apply Hh, elem_of_app. by right. }
  replace (length (pre ++ [r])) with (S (length pre)) in It
    by (rewrite length_app; simpl; lia).
  rewrite It.
  assert (arrays st3 !! a = Some (pre ++ r :: mid ++ post)) as Hl3.
  { rewrite Ha3, Hl2. by rewrite app_nil_r, <- app_assoc. }
  replace (S (length pre) + length (mid ++ post))
    with (length (pre ++ r :: mid ++ post))
    by (rewrite !length_app; simpl; rewrite length_app; lia).
  rewrite (iterate_end _ _ _ _ _ _ Hl3).
  exists st3, (evs1 ++ Invoked r data :: evs0 ++ evsk ++ evs3).
  split_and!; [done| | | |done|].
  - rewrite T3, Tk, T0. simpl. rewrite T1.
    by rewrite <- !app_assoc.
  - by rewrite invoked_app, invoked_cons, !invoked_app, I1, I0, Ik, I3.
  - rewrite He3, He2, He0. simpl. congruence.
  - rewrite Ht3, Ht2, Ht0. simpl. congruence.
Qed.

(** The same emission when the [off] of the transport throws: the listener
    is removed, and the exception ends the emission. *)
Lemma emit_with_failed_removal body ev data st a pre r mid x post k e fuel :
  eventListeners st !! ev = Some a →
  arrays st !! a = Some (pre ++ r :: mid ++ x :: post) →
  body r data = Off ev x k →
  x ∉ pre ++ r :: mid →
  (∀ cb, cb ∈ pre →
     inert (body cb data) ∧ result_of (body cb data) = Ok tt) →
  length pre < fuel →
  off_throws ev x e st →
  ∃ st' evs,
    emit body fuel ev data st = Some (Exn e, st')
    ∧ trace st' = trace st ++ evs
    ∧ invoked evs = pre ++ [r]
    ∧ eventListeners st' !! ev = Some a
    ∧ arrays st' !! a = Some (pre ++ r :: mid ++ post).
Proof.
  intros Ha Hl Hr Hx Hothers Hfuel (f & Hf & Hthrow).
  unfold emit, internalEmit. rewrite Ha.
  replace fuel with (length pre + S (fuel - length pre - 1)) by lia.
  destruct (iterate_prefix body data a (S (fuel - length pre - 1))
              pre (r :: mid ++ x :: post) st)
    as (st1 & evs1 & -> & (Ha1 & He1 & Ht1) & T1 & I1); [done| |].
  { intros cb [Hi Ho]%Hothers. by apply inert_harmless. }
  rewrite (iterate_step _ _ _ _ _ _ r)
    by (rewrite Ha1, Hl; simpl; by apply list_lookup_middle).
  rewrite Hr. cbn [run].
  rewrite (off_result_throws ev x e _ a);
    [|simpl; congruence|exists f; split; [simpl; congruence|done]].
  destruct (off_removes ev x (record (Invoked r data) st1) a
              (pre ++ r :: mid) post) as (Ha0 & He0 & Ht0);
    [simpl; congruence|simpl; rewrite Ha1, Hl; by rewrite <- app_assoc
    |done|].
  destruct (off_trace ev x (record (Invoked r data) st1))
    as (evs0 & T0 & I0).
  eexists _, (evs1 ++ Invoked r data :: evs0). split_and!; [done| | | |].
  - rewrite T0. simpl. rewrite T1. by rewrite <- !app_assoc.
  - by rewrite invoked_app, invoked_cons, I1, I0.
  - rewrite He0. simpl. congruence.
  - rewrite Ha0. simpl.
    rewrite list_lookup_insert_eq
      by (rewrite Ha1; by eapply lookup_lt_Some).
    by rewrite <- !app_assoc.
Qed.

(** C5, as the spec states it, fails: the second listener removes the
    first one, which was invoked already, and the third listener, which
    was registered when the emission started and still is, is not
    invoked.  And with the mock adapter of the repository as transport,
    whose [off] throws, the listeners after the one that calls [off] are
    all left out: the exception ends the emission. *)
Lemma C5_counterexample :
  listeners "e" (register_all "e" [0; remover; 2]) = [0; remover; 2]
  ∧ emit sample_body 10 "e" JS.Null (register_all "e" [0; remover; 2])
    = Some (Ok tt,
            MkState [[remover; 2]] {["e" := 0]}
                    [Invoked 0 JS.Null; Invoked remover JS.Null] None)
  ∧ emit sample_body 10 "e" JS.Null
      (register_with mock_off "e" [remover; 1; 0; 2])
    = Some (Exn channel_name_missing,
            MkState [[remover; 1; 2]] {["e" := 0]}
                    [Invoked remover JS.Null; Notified "e" 0]
                    (Some mock_off)).
Proof. split_and!; by vm_compute. Qed.

(** C5, amended.  A listener removes, during an emission, a listener
    whose registration comes after its own; the listeners before it return
    and leave the registry alone.  When the transport has no [off] of its
    own, or its [off] returns, and the listeners after it also return and
    leave the registry alone, the emission invokes every listener
    registered when it started except the removed one, in registration
    order; the removed registration is gone from the registry, and a later
    emission invokes the same remaining listeners, in order.  When the
    [off] of the transport throws, the registration is gone all the same,
    but the exception comes out of the emission and no listener after the
    removing one is invoked. *)
Theorem C5_removal_of_a_later_listener
    body ev data st a pre r mid x post k fuel :
  eventListeners st !! ev = Some a →
  arrays st !! a = Some (pre ++ r :: mid ++ x :: post) →
  body r data = Off ev x k →
  x ∉ pre ++ r :: mid →
  (∀ cb, cb ∈ pre →
     inert (body cb data) ∧ result_of (body cb data) = Ok tt) →
  length (pre ++ r :: mid ++ x :: post) ≤ fuel →
  (off_returns ev x st →
   inert k → result_of k = Ok tt →
   (∀ cb, cb ∈ mid ++ post →
      inert (body cb data) ∧ result_of (body cb data) = Ok tt) →
   ∃ st' evs,
     emit body fuel ev data st = Some (Ok tt, st')
     ∧ trace st' = trace st ++ evs
     ∧ invoked evs = pre ++ r :: mid ++ post
     ∧ listeners ev st' = pre ++ r :: mid ++ post
     ∧ (x ∉ post →
        ∃ st'' evs',
          emit body fuel ev data st' = Some (Ok tt, st'')
          ∧ trace st'' = trace st' ++ evs'
          ∧ invoked evs' = pre ++ r :: mid ++ post))
  ∧ (∀ e, off_throws ev x e st →
       ∃ st' evs,
         emit body fuel ev data st = Some (Exn e, st')
         ∧ trace st' = trace st ++ evs
         ∧ invoked evs = pre ++ [r]
         ∧ listeners ev st' = pre ++ r :: mid ++ post).
Proof.
  intros Ha Hl Hr Hx Hpre Hfuel. split.
  - intros Hquiet Hk Hkr Hrest.
    assert (∀ cb, cb ∈ pre ++ mid ++ post →
              inert (body cb data) ∧ result_of (body cb data) = Ok tt)
      as Hothers.
    { intros cb [?|?]%elem_of_app; auto. }
    destruct (emit_with_removal body ev data st a pre r mid x post k fuel)
      as (st' & evs & E & T & I & Ha' & Hl' & Ht'); [done..|].
    exists st', evs. split_and!; [done|done|done| |].
    + unfold listeners. rewrite Ha'. simpl. by rewrite Hl'.
    + intros Hpost.
      destruct (emit_all_harmless body ev data st' a
                  (pre ++ r :: mid ++ post) fuel Ha' Hl')
        as (st'' & evs' & E' & _ & T' & I').
      * intros cb Hcb.
        assert (cb = r ∨ cb ∈ pre ++ mid ++ post) as [->|Hcb'].
        { rewrite !elem_of_app, elem_of_cons, elem_of_app in *. tauto. }
        -- rewrite Hr. intros st1 (Ha1 & He1 & Ht1). cbn [run].
           rewrite off_result_returns
             by (intros f t Hf; apply Hquiet; congruence).
           destruct (off_absent ev x st1 a (pre ++ r :: mid ++ post))
             as (Ha2 & He2 & Ht2); [congruence|congruence| |].
           { rewrite !elem_of_app, elem_of_cons, elem_of_app in *. tauto. }
           rewrite run_result by (by right). split; [done|].
           destruct (run_inert k (off ev x st1) Hk) as (? & ? & ?).
           split_and!; congruence.
        -- destruct (Hothers cb Hcb'). by apply inert_harmless.
      * rewrite !length_app in *. simpl in *. rewrite !length_app in *.
        simpl in *. lia.
      * by exists st'', evs'.
  - intros e Hthrow.
    destruct (emit_with_failed_removal body ev data st a pre r mid x post k
                e fuel) as (st' & evs & E & T & I & Ha' & Hl');
      [done..| |done|].
    { rewrite !length_app in Hfuel. simpl in Hfuel. lia. }
    exists st', evs. split_and!; [done|done|done|].
    unfold listeners. rewrite Ha'. simpl. by rewrite Hl'.
Qed.

Lemma C5_witness :
  (∃ st' evs,
     emit sample_body 4 "e" JS.Null
       (register_with quiet_off "e" [remover; 1; 0; 2])
     = Some (Ok tt, st')
     ∧ trace st' = trace (register_with quiet_off "e" [remover; 1; 0; 2])
                   ++ evs
     ∧ invoked evs = [] ++ remover :: [1] ++ [2]
     ∧ listeners "e" st' = [] ++ remover :: [1] ++ [2]
     ∧ (0 ∉ [2] →
        ∃ st'' evs',
          emit sample_body 4 "e" JS.Null st' = Some (Ok tt, st'')
          ∧ trace st'' = trace st' ++ evs'
          ∧ invoked evs' = [] ++ remover :: [1] ++ [2]))
  ∧ (∃ st' evs,
       emit sample_body 4 "e" JS.Null
         (register_with mock_off "e" [remover; 1; 0; 2])
       = Some (Exn channel_name_missing, st')
       ∧ trace st' = trace (register_with mock_off "e" [remover; 1; 0; 2])
                     ++ evs
       ∧ invoked evs = [] ++ [remover]
       ∧ listeners "e" st' = [] ++ remover :: [1] ++ [2]).
Proof.
  assert (0 ∉ [] ++ remover :: [1]) as Hx.
  { intros H. repeat (apply elem_of_cons in H as [[=]|H]).
    by apply elem_of_nil in H. }
  assert (∀ cb, cb ∈ ([] : list listener) →
            inert (sample_body cb JS.Null)
            ∧ result_of (sample_body cb JS.Null) = Ok tt) as Hpre.
  { intros cb Hcb. by apply elem_of_nil in Hcb. }
  split.
  - destruct (C5_removal_of_a_later_listener sample_body "e" JS.Null
                (register_with quiet_off "e" [remover; 1; 0; 2])
                0 [] remover [1] 0 [2] Return 4) as [Hreturns _].
    + reflexivity.
    + reflexivity.
    + reflexivity.
    + exact Hx.
    + exact Hpre.
    + simpl. lia.
    + apply Hreturns.
      * intros f t [= <-]. reflexivity.
      * exact I.
      * reflexivity.
      * intros cb Hcb.
        repeat (apply elem_of_cons in Hcb as [->|Hcb]; [by vm_compute|]).
        by apply elem_of_nil in Hcb.
  - destruct (C5_removal_of_a_later_listener sample_body "e" JS.Null
                (register_with mock_off "e" [remover; 1; 0; 2])
                0 [] remover [1] 0 [2] Return 4) as [_ Hthrows].
    + reflexivity.
    + reflexivity.
    + reflexivity.
    + exact Hx.
    + exact Hpre.
    + simpl. lia.
    + apply Hthrows. exists mock_off. split; reflexivity.
Defined.
End BusProperties.

(** * Further properties of the dispatch pipeline *)

(** ** Lifecycle hooks *)

Lemma runHooks_from_calls name k hooks args w :
  ∃ evs, trace (runHooks_from name k hooks args w) = trace w ++ evs
         ∧ calls evs = Hook name <$> seq k (length hooks).
Proof.
  revert k w. induction hooks as [|h rest IH]; intros k w; simpl.
  - exists []. by rewrite app_nil_r.
  - destruct (exec (h args) (record (Called (Hook name k)) w))
      as [[[]|err] w1] eqn:E;
      destruct (exec_calls _ _ _ _ E) as (evs1 & T1 & C1).
    + destruct (IH (S k) w1) as (evs & T & C).
      exists (Called (Hook name k) :: evs1 ++ evs). split.
      * rewrite T, T1. simpl. by rewrite <- !app_assoc.
      * simpl. by rewrite calls_app, C1, C.
    + destruct (IH (S k) (record (ConsoleError err) w1)) as (evs & T & C).
      exists (Called (Hook name k) :: evs1 ++ ConsoleError err :: evs). split.
      * rewrite T. simpl. rewrite T1. simpl. by rewrite <- !app_assoc.
      * simpl. rewrite calls_app, C1. simpl. by rewrite C.
Qed.

(** X1.  [runHooks] calls every hook registered under the name once, in
    registration order, whether the hooks before it returned or threw. *)
Theorem runHooks_calls_each_hook_once c name args w :
  ∃ evs, trace (runHooks c name args w) = trace w ++ evs
         ∧ calls evs = Hook name <$> seq 0 (length (lifecycleHooks c name)).
Proof. apply runHooks_from_calls. Qed.

(** ** The order of the middleware calls *)

Lemma called_upto_mono len i i' :
  i ≤ i' → (called_upto len i ≤ called_upto len i')%nat.
Proof. unfold called_upto. lia. Qed.

Lemma seq_between (a b c : nat) :
  (a ≤ b)%nat → (b ≤ c)%nat →
  seq a (b - a) ++ seq b (c - b) = seq a (c - a).
Proof.
  intros Hab Hbc. replace (c - a)%nat with ((b - a) + (c - b))%nat by lia.
  rewrite seq_app. do 2 f_equal. lia.
Qed.

(** From index [j] on, the runner calls the middleware whose indices lie
    between its [i] before and its [i] after, in order. *)
Lemma next_calls ch ctx len ms j s r s' :
  next ch ctx ms j s = (r, s') →
  0 ≤ j → j ≤ s.1 + 1 →
  len = (Z.to_nat j + length ms)%nat →
  s.1 ≤ s'.1
  ∧ ∃ evs, trace s'.2 = trace s.2 ++ evs
      ∧ calls evs
        = Middleware ch <$> seq (called_upto len s.1)
                                (called_upto len s'.1 - called_upto len s.1).
Proof.
  revert j s r s'. induction ms as [|fn rest IH]; intros j [i w] r s'; simpl.
  - intros H Hj0 Hj Hlen. case_bool_decide as Hji; injection H as <- <-;
      simpl; (split; [lia|]); exists []; rewrite app_nil_r; (split; [done|]).
    + by rewrite Nat.sub_diag.
    + replace (called_upto len j - called_upto len i)%nat with 0%nat; [done|].
      unfold called_upto. lia.
  - intros H Hj0 Hj Hlen. case_bool_decide as Hji.
    { injection H as <- <-. simpl. split; [lia|]. exists [].
      rewrite app_nil_r. split; [done|]. by rewrite Nat.sub_diag. }
    set (Rel := fun a b : Z * world =>
      j ≤ a.1 → a.1 ≤ b.1
      ∧ ∃ evs, trace b.2 = trace a.2 ++ evs
          ∧ calls evs
            = Middleware ch <$> seq (called_upto len a.1)
                (called_upto len b.1 - called_upto len a.1)).
    assert (Rel (j, record (Called (Middleware ch (Z.to_nat j))) w) s')
      as Hrel.
    { eapply (run_invariant (fun _ : unit => next ch ctx rest (j + 1)) Rel);
        [| | | | | |exact H].
      - intros a _. split; [lia|]. exists []. rewrite app_nil_r.
        split; [done|]. by rewrite Nat.sub_diag.
      - intros a b c Hab Hbc Ha.
        destruct (Hab Ha) as [H1 (e1 & T1 & C1)].
        destruct (Hbc (Z.le_trans _ _ _ Ha H1)) as [H2 (e2 & T2 & C2)].
        split; [lia|]. exists (e1 ++ e2). split.
        + by rewrite T2, T1, app_assoc.
        + rewrite calls_app, C1, C2, <- fmap_app. f_equal.
          apply seq_between; by apply called_upto_mono.
      - intros x w0 l _. simpl. split; [lia|]. exists [Did l].
        split; [done|]. by rewrite Nat.sub_diag.
      - intros x w0 _. simpl. split; [lia|]. exists [StopCalled].
        split; [done|]. by rewrite Nat.sub_diag.
      - intros x w0 k v _. simpl. split; [lia|]. exists [].
        rewrite app_nil_r. split; [done|]. by rewrite Nat.sub_diag.
      - intros [] a r' b En Ha.
        apply (IH (j + 1) a r' b En); simpl in *; lia. }
    destruct (Hrel (Z.le_refl j)) as [Hi (evs & T & C)]. simpl in *.
    split; [lia|].
    exists (Called (Middleware ch (Z.to_nat j)) :: evs). split.
    + rewrite T. simpl. by rewrite <- app_assoc.
    + simpl. rewrite C. clear C T Hrel.
      pose proof (called_upto_mono len j s'.1 Hi) as Hm.
      assert (called_upto len i = Z.to_nat j) as -> by
        (unfold called_upto; lia).
      assert (called_upto len j = S (Z.to_nat j)) as Hj1 by
        (unfold called_upto; lia).
      rewrite Hj1 in *.
      replace (called_upto len s'.1 - Z.to_nat j)%nat
        with (S (called_upto len s'.1 - S (Z.to_nat j))) by lia.
      done.
Qed.

Lemma runMiddleware_calls ch ms ctx w :
  ∃ evs n,
    trace (snd (runMiddleware ch ms ctx w)) = trace w ++ evs
    ∧ calls evs = Middleware ch <$> seq 0 n
    ∧ (n ≤ length ms)%nat.
Proof.
  unfold runMiddleware.
  destruct (next ch ctx ms 0 (-1, w)) as [r [i w']] eqn:E.
  destruct (next_calls ch ctx (length ms) ms 0 (-1, w) r (i, w') E)
    as [Hi (evs & T & C)]; [lia|simpl; lia|simpl; lia|].
  simpl in *.
  replace (called_upto (length ms) (-1)) with 0%nat in C
    by (unfold called_upto; lia).
  rewrite Nat.sub_0_r in C.
  destruct r as [[]|err]; simpl.
  - exists evs, (called_upto (length ms) i).
    split_and!; [done|done|unfold called_upto; lia].
  - exists (evs ++ [ConsoleError err]), (called_upto (length ms) i).
    split_and!; [by rewrite T, app_assoc| |unfold called_upto; lia].
    rewrite calls_app, C. simpl. by rewrite app_nil_r.
Qed.

(** X2.  One run of a chain calls its middleware in index order, each at
    most once and without a gap: the calls are those of the indices [0] to
    [n - 1], for some [n] that does not exceed the length of the chain. *)
Theorem runMiddleware_calls_in_order ch ms ctx w :
  ∃ evs n,
    trace (snd (runMiddleware ch ms ctx w)) = trace w ++ evs
    ∧ calls evs = Middleware ch <$> seq 0 n
    ∧ (n ≤ length ms)%nat.
Proof. apply runMiddleware_calls. Qed.

(** ** Middleware that do not call their continuation *)

Lemma run_ext {X N R} (nxt1 nxt2 : N -> X * world -> outcome unit * (X * world))
    (c : code N R) s :
  (∀ n s0, nxt1 n s0 = nxt2 n s0) → run nxt1 c s = run nxt2 c s.
Proof.
  intros Hn. revert s.
  induction c as [r0|e|l k IH|k IH|k IH|key v k IH|key k IH|n k IHk h IHh];
    intros s; simpl; auto.
  rewrite Hn. destruct (nxt2 n s) as [[[]|e] s1]; auto.
Qed.

Lemma run_no_next {X N R}
    (nxt1 nxt2 : N -> X * world -> outcome unit * (X * world))
    (c : code N R) s :
  no_next c → run nxt1 c s = run nxt2 c s.
Proof.
  revert s.
  induction c as [r0|e|l k IH|k IH|k IH|key v k IH|key k IH|n k IHk h IHh];
    intros s Hc; simpl in *; auto.
  done.
Qed.

Lemma next_cut ch ctx fn rest pre j s :
  no_next (fn ctx) →
  next ch ctx (pre ++ fn :: rest) j s = next ch ctx (pre ++ [fn]) j s.
Proof.
  intros Hfn. revert j s. induction pre as [|m pre IH]; intros j s; simpl;
    case_bool_decide; try done.
  - by apply run_no_next.
  - apply run_ext. intros [] s0. apply IH.
Qed.

Lemma elem_of_calls f evs : Called f ∈ evs → f ∈ calls evs.
Proof.
  induction evs as [|e evs IH]; intros H; [by apply elem_of_nil in H|].
  apply elem_of_cons in H as [<-|H]; simpl.
  - apply list_elem_of_here.
  - destruct e; try by apply IH. apply list_elem_of_further. by apply IH.
Qed.

(** X3.  Once the chain reaches a middleware that never calls its
    continuation, what is registered after it does not matter: the runner
    does what it does on the chain cut after that middleware, and calls no
    middleware of a higher index. *)
Theorem runMiddleware_cut_at_silent_middleware ch ctx pre fn rest w :
  no_next (fn ctx) →
  runMiddleware ch (pre ++ fn :: rest) ctx w
  = runMiddleware ch (pre ++ [fn]) ctx w
  ∧ ∃ evs,
      trace (snd (runMiddleware ch (pre ++ fn :: rest) ctx w)) = trace w ++ evs
      ∧ ∀ j, (length pre < j)%nat → Called (Middleware ch j) ∉ evs.
Proof.
  intros Hfn.
  assert (runMiddleware ch (pre ++ fn :: rest) ctx w
          = runMiddleware ch (pre ++ [fn]) ctx w) as E.
  { unfold runMiddleware. by rewrite next_cut. }
  split; [done|]. rewrite E.
  destruct (runMiddleware_calls ch (pre ++ [fn]) ctx w)
    as (evs & n & T & C & Hn).
  exists evs. split; [done|]. intros j Hj Hin%elem_of_calls.
  rewrite C in Hin. apply list_elem_of_fmap in Hin as (k & [= <-] & Hk).
  apply elem_of_seq in Hk. rewrite length_app in Hn. simpl in Hn. lia.
Qed.

Lemma runMiddleware_cut_witness :
  runMiddleware GlobalChain ([] ++ forgets_next :: [second_middleware])
    sample_context (fresh [])
  = runMiddleware GlobalChain ([] ++ [forgets_next]) sample_context (fresh [])
  ∧ ∃ evs,
      trace (snd (runMiddleware GlobalChain
                    ([] ++ forgets_next :: [second_middleware])
                    sample_context (fresh []))) = trace (fresh []) ++ evs
      ∧ ∀ j, (length (@nil middleware) < j)%nat →
             Called (Middleware GlobalChain j) ∉ evs.
Proof.
  apply (runMiddleware_cut_at_silent_middleware GlobalChain sample_context
           [] forgets_next [second_middleware] (fresh [])).
  exact I.
Defined.

(** X4.  Returning without calling [next] is not a rejection.  When the
    first middleware never calls its continuation, the runner reports
    [true] if that middleware returns and leaves the context unstopped,
    [false] if it stops the context or throws; the rest of the chain is not
    run in either case. *)
Theorem runMiddleware_silent_middleware_reports ch ctx fn rest w :
  no_next (fn ctx) →
  runMiddleware ch (fn :: rest) ctx w
  = match run no_continuation (fn ctx)
            (0, record (Called (Middleware ch 0)) w) with
    | (Ok _, (_, w')) => (negb (stopped w'), w')
    | (Exn e, (_, w')) => (false, record (ConsoleError e) w')
    end.
Proof.
  intros Hfn. unfold runMiddleware. simpl.
  by rewrite (run_no_next _ no_continuation _ _ Hfn).
Qed.

Lemma runMiddleware_silent_witness :
  runMiddleware GlobalChain (forgets_next :: [second_middleware])
    sample_context (fresh [])
  = (true, MkWorld false ∅ [Called (Middleware GlobalChain 0);
                             Did "no next"]).
Proof.
  exact (runMiddleware_silent_middleware_reports GlobalChain sample_context
           forgets_next [second_middleware] (fresh []) I).
Defined.

Example handler_runs_after_a_middleware_without_next :
  on_message core_forgets_next "x" JS.Undefined []
  = (Done, [Called (Middleware GlobalChain 0); Did "no next";
            Called Handler; Did "handler";
            Called (Hook afterMessage 0); Did "afterMessage hook"]).
Proof. by vm_compute. Qed.


(** ** The paths of one dispatch *)

Lemma runMiddleware_pipeline ch ms ctx w b w' :
  runMiddleware ch ms ctx w = (b, w') →
  grows in_pipeline w w' ∧ (b = true → stopped w' = false).
Proof.
  intros [Hg Hb]%runMiddleware_grows. split; [|done].
  eapply grows_mono; [|apply Hg]. intros c Hc. left. by exists ch.
Qed.

Lemma runGuards_pipeline gs ctx w b w' :
  runGuards gs ctx w = (b, w') → grows in_pipeline w w'.
Proof.
  intros Hg%runGuards_from_grows.
  eapply grows_mono; [|apply Hg]. intros c Hc. by right.
Qed.

(** After the before-message hooks, a dispatch either is rejected having
    called only middleware and guards, or reaches the handler of the route
    on a context that is not stopped and ends as the handler decides, or
    finds guards that cannot be iterated and enters the [catch] block. *)
Lemma on_message_cases c ty p t ctx :
  createContext c ty p = Ok ctx →
  (∃ w, on_message c ty p t = (Rejected, trace w)
        ∧ grows in_pipeline (runHooks c beforeMessage (CtxArg ctx) (fresh t)) w)
  ∨ (∃ rt w4 r w5,
       routes c !! ty = Some rt
       ∧ grows in_pipeline (runHooks c beforeMessage (CtxArg ctx) (fresh t)) w4
       ∧ stopped w4 = false
       ∧ exec (route_handler rt ctx) (record (Called Handler) w4) = (r, w5)
       ∧ on_message c ty p t
         = match r with
           | Ok _ => (Done, trace (runHooks c afterMessage (CtxArg ctx) w5))
           | Exn err => on_error c err ctx w5
           end)
  ∨ (∃ rt v w2,
       routes c !! ty = Some rt ∧ guards rt = NotIterable v
       ∧ grows in_pipeline (runHooks c beforeMessage (CtxArg ctx) (fresh t)) w2
       ∧ on_message c ty p t = on_error c not_iterable ctx w2).
Proof.
  intros Hctx. unfold on_message. rewrite Hctx.
  set (w1 := runHooks c beforeMessage (CtxArg ctx) (fresh t)).
  destruct (runMiddleware GlobalChain _ ctx w1) as [accepted w2] eqn:E2.
  apply runMiddleware_pipeline in E2 as [G2 _].
  destruct accepted; simpl; [|left; eauto].
  destruct (routes c !! ty) as [rt|]; [|left; eauto].
  destruct (guards rt) as [gs|v] eqn:Hgs;
    [|right; right; by exists rt, v, w2].
  destruct (runGuards gs ctx w2) as [allowed w3] eqn:E3.
  apply runGuards_pipeline in E3.
  pose proof (grows_trans _ _ _ _ G2 E3) as G3.
  destruct allowed; simpl; [|left; eauto].
  destruct (runMiddleware RouteChain _ ctx w3) as [passed w4] eqn:E4.
  apply runMiddleware_pipeline in E4 as [G4 S4].
  pose proof (grows_trans _ _ _ _ G3 G4) as G14.
  destruct passed; simpl; [|left; eauto].
  right. left.
  destruct (exec (route_handler rt ctx) (record (Called Handler) w4))
    as [r w5] eqn:E5.
  exists rt, w4, r, w5. split_and!; [done|done|by apply S4|done|].
  by destruct r as [[]|err].
Qed.

Lemma grows_calls allowed w w' :
  grows allowed w w' →
  ∃ evs, trace w' = trace w ++ evs ∧ ∀ f, Called f ∈ evs → allowed f.
Proof. intros (evs & T & _ & C). by exists evs. Qed.

(** X5.  A message whose event type has no route is dropped silently: the
    callback ends in [Rejected] and has called nothing but the
    before-message hooks and the global middleware. *)
Theorem message_without_route_is_dropped c ty p t ctx :
  createContext c ty p = Ok ctx →
  routes c !! ty = None →
  ∃ evs, on_message c ty p t = (Rejected, t ++ evs)
    ∧ ∀ f, Called f ∈ evs →
           is_hook beforeMessage f ∨ is_middleware GlobalChain f.
Proof.
  intros Hctx Hrt. unfold on_message. rewrite Hctx, Hrt.
  pose proof (runHooks_grows c beforeMessage (CtxArg ctx) (fresh t)) as G1.
  destruct (runMiddleware GlobalChain _ ctx _) as [accepted w2] eqn:E2.
  apply runMiddleware_grows in E2 as [G2 _].
  assert (grows (fun f => is_hook beforeMessage f ∨ is_middleware GlobalChain f)
            (fresh t) w2) as (evs & T & C)%grows_calls.
  { eapply grows_trans; (eapply grows_mono; [|done]); simpl; auto. }
  exists evs. simpl in T. rewrite <- T. split; [|done].
  by destruct accepted.
Qed.

Lemma message_without_route_witness :
  ∃ evs, on_message core_boom "unknown" JS.Undefined [] = (Rejected, [] ++ evs)
    ∧ ∀ f, Called f ∈ evs →
           is_hook beforeMessage f ∨ is_middleware GlobalChain f.
Proof.
  apply (message_without_route_is_dropped core_boom "unknown" JS.Undefined []
           (MkContext "unknown" JS.Undefined JS.Undefined JS.Undefined
              JS.Undefined "local" JS.Undefined JS.Undefined));
    by vm_compute.
Defined.

Lemma before_handler_phase c ctx t w :
  grows in_pipeline (runHooks c beforeMessage (CtxArg ctx) (fresh t)) w →
  ∃ pre, trace w = t ++ pre ∧ ∀ f, Called f ∈ pre → before_handler f.
Proof.
  intros G.
  assert (grows before_handler (fresh t) w) as (evs & T & C)%grows_calls.
  { eapply grows_trans; [apply beforeMessage_before|].
    eapply grows_mono; [|apply G]. intros f [Hf|Hf]; [right; by left|].
    right. by right. }
  by exists evs.
Qed.

(** X6.  A message that ends in [Done] has called the handler once, after
    the hooks, middleware and guards that precede it, and then every
    after-message hook once, in registration order. *)
Theorem done_message_runs_after_hooks c ty p t tr :
  on_message c ty p t = (Done, tr) →
  ∃ pre post,
    tr = t ++ pre ++ Called Handler :: post
    ∧ (∀ f, Called f ∈ pre → before_handler f)
    ∧ calls post
      = Hook afterMessage <$> seq 0 (length (lifecycleHooks c afterMessage)).
Proof.
  intros H. destruct (createContext c ty p) as [ctx|e] eqn:Hctx;
    [|unfold on_message in H; by rewrite Hctx in H].
  destruct (on_message_cases c ty p t ctx Hctx)
    as [(w & E & _)|[(rt & w4 & r & w5 & _ & G & _ & E5 & E)
                    |(rt & v & w2 & _ & _ & _ & E)]];
    rewrite E in H; [done| |by apply on_error_grows in H as (_ & ? & _)].
  destruct (before_handler_phase _ _ _ _ G) as (pre & T4 & Cpre).
  destruct (exec_calls _ _ _ _ E5) as (evs5 & T5 & C5).
  destruct r as [[]|err];
    [|by apply on_error_grows in H as (_ & ? & _)].
  injection H as <-.
  destruct (runHooks_from_calls afterMessage 0 (lifecycleHooks c afterMessage)
              (CtxArg ctx) w5) as (evs6 & T6 & C6).
  exists pre, (evs5 ++ evs6). split_and!; [|done|].
  - unfold runHooks. rewrite T6, T5. simpl. rewrite T4.
    by rewrite <- !app_assoc.
  - by rewrite calls_app, C5, C6.
Qed.

Lemma done_message_witness :
  ∃ pre post,
    [Called (Middleware GlobalChain 0); Did "no next";
     Called Handler; Did "handler";
     Called (Hook afterMessage 0); Did "afterMessage hook"]
    = [] ++ pre ++ Called Handler :: post
    ∧ (∀ f, Called f ∈ pre → before_handler f)
    ∧ calls post
      = Hook afterMessage
          <$> seq 0 (length (lifecycleHooks core_forgets_next afterMessage)).
Proof.
  apply (done_message_runs_after_hooks core_forgets_next "x" JS.Undefined []).
  by vm_compute.
Defined.

(** The [catch] block calls every on-error hook once, in registration
    order, and then the error handler once. *)
Lemma on_error_calls c err ctx w term tr :
  on_error c err ctx w = (term, tr) →
  ∃ evs, tr = trace w ++ evs
    ∧ calls evs
      = (Hook onError <$> seq 0 (length (lifecycleHooks c onError)))
        ++ [ErrorHandler].
Proof.
  unfold on_error.
  destruct (runHooks_from_calls onError 0 (lifecycleHooks c onError)
              (ErrCtxArgs err ctx) w) as (evs6 & T6 & C6).
  destruct (exec (errorHandler c err ctx) _) as [r w7] eqn:E7.
  destruct (exec_calls _ _ _ _ E7) as (evs7 & T7 & C7).
  intros E. exists (evs6 ++ Called ErrorHandler :: evs7). split.
  - assert (tr = trace w7) as -> by (destruct r as [[]|?]; by injection E).
    rewrite T7. simpl. unfold runHooks. rewrite T6.
    by rewrite <- !app_assoc.
  - rewrite !calls_app, C6. simpl. by rewrite C7.
Qed.

(** X7.  A message that ends in [Errored] has run nothing but hooks,
    middleware and guards before it either called the handler once, or
    found that the guards of its route are a value that cannot be iterated
    and called no handler; from there on it has called every on-error hook
    once, in registration order, then the error handler once, and no
    after-message hook. *)
Theorem errored_message_runs_error_hooks c ty p t tr :
  on_message c ty p t = (Errored, tr) →
  ∃ pre post,
    (tr = t ++ pre ++ Called Handler :: post
     ∨ (tr = t ++ pre ++ post
        ∧ ∃ rt v, routes c !! ty = Some rt ∧ guards rt = NotIterable v))
    ∧ (∀ f, Called f ∈ pre → before_handler f)
    ∧ calls post
      = (Hook onError <$> seq 0 (length (lifecycleHooks c onError)))
        ++ [ErrorHandler].
Proof.
  intros H. destruct (createContext c ty p) as [ctx|e] eqn:Hctx;
    [|unfold on_message in H; by rewrite Hctx in H].
  destruct (on_message_cases c ty p t ctx Hctx)
    as [(w & E & _)|[(rt & w4 & r & w5 & _ & G & _ & E5 & E)
                    |(rt & v & w2 & Hrt & Hgs & G & E)]];
    rewrite E in H; [done| |].
  - destruct (before_handler_phase _ _ _ _ G) as (pre & T4 & Cpre).
    destruct (exec_calls _ _ _ _ E5) as (evs5 & T5 & C5).
    destruct r as [[]|err]; [done|].
    destruct (on_error_calls _ _ _ _ _ _ H) as (evs & -> & C).
    exists pre, (evs5 ++ evs). split_and!; [left|done|].
    + rewrite T5. simpl. rewrite T4. by rewrite <- !app_assoc.
    + by rewrite calls_app, C5.
  - destruct (before_handler_phase _ _ _ _ G) as (pre & T2 & Cpre).
    destruct (on_error_calls _ _ _ _ _ _ H) as (evs & -> & C).
    exists pre, evs. split_and!; [right|done|done].
    split; [by rewrite T2, app_assoc|by exists rt, v].
Qed.

Lemma errored_message_witness :
  ∃ pre post,
    ([Called (Hook onError 0); Did "onError hook";
      Called ErrorHandler; Did "send error"]
     = [] ++ pre ++ Called Handler :: post
     ∨ ([Called (Hook onError 0); Did "onError hook";
         Called ErrorHandler; Did "send error"]
        = [] ++ pre ++ post
        ∧ ∃ rt v, routes core_null_guards !! "x" = Some rt
                  ∧ guards rt = NotIterable v))
    ∧ (∀ f, Called f ∈ pre → before_handler f)
    ∧ calls post
      = (Hook onError
           <$> seq 0 (length (lifecycleHooks core_null_guards onError)))
        ++ [ErrorHandler].
Proof.
  apply (errored_message_runs_error_hooks core_null_guards "x" JS.Undefined
           []).
  by vm_compute.
Defined.

Example handler_throws_and_default_handler_sends :
  on_message core_boom "x" JS.Undefined []
  = (Errored, [Called Handler; Called (Hook onError 0); Did "onError hook";
               Called ErrorHandler; Did "send error"]).
Proof. by vm_compute. Qed.

(** X8.  Every message whose context could be built runs all the
    before-message hooks first, once each and in registration order,
    whatever happens to the message afterwards; nothing that follows is a
    before-message hook. *)
Theorem before_hooks_run_first c ty p t ctx :
  createContext c ty p = Ok ctx →
  ∃ evs1 evs2,
    snd (on_message c ty p t) = t ++ evs1 ++ evs2
    ∧ calls evs1
      = Hook beforeMessage <$> seq 0 (length (lifecycleHooks c beforeMessage))
    ∧ ∀ f, Called f ∈ evs2 → past_before_hooks f.
Proof.
  intros Hctx.
  destruct (runHooks_from_calls beforeMessage 0 (lifecycleHooks c beforeMessage)
              (CtxArg ctx) (fresh t)) as (evs1 & T1 & C1).
  fold (runHooks c beforeMessage (CtxArg ctx) (fresh t)) in T1. simpl in T1.
  assert (∃ w, snd (on_message c ty p t) = trace w
               ∧ grows past_before_hooks
                   (runHooks c beforeMessage (CtxArg ctx) (fresh t)) w)
    as (w & -> & (evs2 & T2 & C2)%grows_calls).
  { assert (∀ err w, grows past_before_hooks
                (runHooks c beforeMessage (CtxArg ctx) (fresh t)) w →
              ∃ w', snd (on_error c err ctx w) = trace w'
                ∧ grows past_before_hooks
                    (runHooks c beforeMessage (CtxArg ctx) (fresh t)) w')
      as Hcatch.
    { intros err w G.
      destruct (on_error c err ctx w) as [term tr] eqn:E.
      destruct (on_error_grows _ _ _ _ _ _ E) as (_ & _ & w' & G' & ->).
      exists w'. split; [done|]. eapply grows_trans; [done|].
      eapply grows_mono; [|done].
      intros f Hf. right. by right. }
    destruct (on_message_cases c ty p t ctx Hctx)
      as [(w & -> & G)|[(rt & w4 & r & w5 & _ & G & _ & E5 & ->)
                       |(rt & v & w2 & _ & _ & G & ->)]].
    - exists w. split; [done|]. eapply grows_mono; [|done]. by left.
    - assert (grows past_before_hooks
                (runHooks c beforeMessage (CtxArg ctx) (fresh t)) w5) as G5.
      { eapply grows_trans; [eapply grows_mono; [|done]; by left|].
        eapply grows_trans; [apply grows_called; right; by left|].
        eapply exec_grows_any, E5. }
      destruct r as [[]|err].
      + eexists. split; [done|]. eapply grows_trans; [done|].
        eapply grows_mono; [|apply runHooks_grows].
        intros f Hf. right. right. by left.
      + by apply Hcatch.
    - apply Hcatch. eapply grows_mono; [|done]. by left. }
  exists evs1, evs2. split_and!; [|done|done].
  by rewrite T2, T1, app_assoc.
Qed.

Lemma before_hooks_witness :
  ∃ evs1 evs2,
    snd (on_message core_boom "x" JS.Undefined []) = [] ++ evs1 ++ evs2
    ∧ calls evs1
      = Hook beforeMessage
          <$> seq 0 (length (lifecycleHooks core_boom beforeMessage))
    ∧ ∀ f, Called f ∈ evs2 → past_before_hooks f.
Proof.
  apply (before_hooks_run_first core_boom "x" JS.Undefined [] sample_context).
  reflexivity.
Defined.

(** ** The context factory *)

(** X9.  [createContext] throws exactly what the adapter's
    [normalizePayload] throws and nothing else.  Otherwise every field it
    takes from the (normalized) payload is the field of that name, and
    [undefined] when the payload is absent or is not an object; the remote
    client is the payload's [clientId]. *)
Theorem createContext_reads_the_payload c ty p :
  createContext c ty p
  = match
      match normalizePayload c with
      | Some f => f p
      | None => Ok p
      end
    with
    | Exn e => Exn e
    | Ok n =>
        Ok (MkContext ty (JS.opt_get n "payload")
              (JS.opt_get n "applicationId") (JS.opt_get n "channel")
              (JS.opt_get n "clientId") (instanceClientId c)
              (globalAppContext c) (JS.opt_get n "emitterClientId"))
    end.
Proof.
  unfold createContext.
  destruct (match normalizePayload c with Some f => f p | None => Ok p end)
    as [n|e]; [|done].
  by destruct n as [| |[]|z| |s|fields]; simpl;
    try destruct (negb _); simpl; rewrite ?lookup_empty.
Qed.

(** ** Route registration *)

Lemma register_each_untouched l rt s :
  (∀ r, r ∈ l → event r ≠ Some s) →
  snd (register_each l rt) !! s = rt !! s.
Proof.
  revert rt. induction l as [|r l IH]; intros rt Hne; [done|].
  destruct (valid_or_invalid r) as [(s' & h & Es & Hs & Eh)|Hi].
  - rewrite (register_valid _ _ _ _ _ Es Hs Eh).
    rewrite IH by (intros r' Hr'; by apply Hne, list_elem_of_further).
    apply lookup_insert_ne. intros ->.
    by apply (Hne r (list_elem_of_here _ _)).
  - by destruct (register_invalid r l rt Hi) as [e ->].
Qed.

(** X10.  The last registration wins: after a list of valid routes has
    been registered, a lookup of an event type finds the handler of the
    last entry of the list that has this event type, with the guards and
    the middleware that entry wrote, each the empty list when the entry
    wrote none. *)
Theorem registration_last_entry_wins l c p1 r p2 s h :
  Forall valid_entry l →
  l = p1 ++ r :: p2 →
  event r = Some s → entry_handler r = HandlerFunction h →
  (∀ r', r' ∈ p2 → event r' ≠ Some s) →
  routes (snd (registerRoutes (RouteList l) c)) !! s
  = Some (MkRoute (default (GuardList []) (entry_guards r))
                  (default [] (entry_middleware r)) h).
Proof.
  intros Hl -> Es Eh Hne. unfold registerRoutes.
  pose proof (register_each_last p1 r p2 (routes c) s h Hl Es Eh Hne) as H.
  by destruct (register_each (p1 ++ r :: p2) (routes c)).
Qed.

Lemma registration_last_entry_witness :
  routes (snd (registerRoutes (RouteList [guarded_ping; chat_entry; ping_entry])
                 new_core)) !! "ping"
  = Some (MkRoute (GuardList []) [] pong).
Proof.
  apply (registration_last_entry_wins [guarded_ping; chat_entry; ping_entry]
           new_core [guarded_ping; chat_entry] ping_entry [] "ping" pong).
  - repeat constructor; eexists _, _;
      (split_and!; [reflexivity|done|reflexivity]).
  - reflexivity.
  - reflexivity.
  - reflexivity.
  - intros r' Hr'. by apply elem_of_nil in Hr'.
Defined.

Example registration_keeps_guards_and_middleware :
  routes (snd (registerRoutes (RouteList [ping_entry; guarded_ping])
                 new_core)) !! "ping"
  = Some (MkRoute (GuardList [deny]) [second_middleware] pong).
Proof. by vm_compute. Qed.

(** [guards: null] is registered as it is, and a message for that route
    goes to the on-error hooks and the error handler without a call of the
    handler. *)
Example registration_keeps_null_guards :
  let c := snd (registerRoutes (RouteList [null_guards_entry]) new_core) in
  fst (registerRoutes (RouteList [null_guards_entry]) new_core) = Registered
  ∧ routes c !! "x" = Some (MkRoute (NotIterable JS.Null) [] pong)
  ∧ on_message c "x" JS.Undefined []
    = (Errored, [Called ErrorHandler; Did "send error"]).
Proof. split_and!; by vm_compute. Qed.

(** X11.  Registration touches only what it is given: it leaves the route
    of every event type that no entry of the list names as it was, and it
    leaves the middleware, the hooks and the error handler alone, whether
    the call returns or raises. *)
Theorem registration_leaves_other_routes l c s :
  (∀ r, r ∈ l → event r ≠ Some s) →
  routes (snd (registerRoutes (RouteList l) c)) !! s = routes c !! s
  ∧ globalMiddleware (snd (registerRoutes (RouteList l) c))
    = globalMiddleware c
  ∧ lifecycleHooks (snd (registerRoutes (RouteList l) c)) = lifecycleHooks c
  ∧ errorHandler (snd (registerRoutes (RouteList l) c)) = errorHandler c.
Proof.
  intros Hne. unfold registerRoutes.
  pose proof (register_each_untouched l (routes c) s Hne) as H.
  by destruct (register_each l (routes c)).
Qed.

Lemma registration_leaves_witness :
  routes (snd (registerRoutes (RouteList [ping_entry; text_handler_entry])
                 core_boom)) !! "chat"
  = routes core_boom !! "chat"
  ∧ globalMiddleware
      (snd (registerRoutes (RouteList [ping_entry; text_handler_entry])
              core_boom))
    = globalMiddleware core_boom
  ∧ lifecycleHooks
      (snd (registerRoutes (RouteList [ping_entry; text_handler_entry])
              core_boom))
    = lifecycleHooks core_boom
  ∧ errorHandler
      (snd (registerRoutes (RouteList [ping_entry; text_handler_entry])
              core_boom))
    = errorHandler core_boom.
Proof.
  apply (registration_leaves_other_routes [ping_entry; text_handler_entry]
           core_boom "chat").
  intros r Hr. repeat (apply elem_of_cons in Hr as [->|Hr]; [done|]).
  by apply elem_of_nil in Hr.
Defined.

(** X12.  Registering a list of valid routes and then a second list is the
    same as registering the two lists as one. *)
Theorem registration_composes l1 l2 c :
  Forall valid_entry l1 →
  registerRoutes (RouteList l2) (snd (registerRoutes (RouteList l1) c))
  = registerRoutes (RouteList (l1 ++ l2)) c.
Proof.
  intros H1. unfold registerRoutes.
  destruct (register_each_app l1 l2 (routes c) H1) as [_ ->].
  destruct (register_each l1 (routes c)) as [r1 rt1]. simpl.
  by destruct (register_each l2 rt1).
Qed.

Lemma registration_composes_witness :
  registerRoutes (RouteList [chat_entry; nameless_entry])
    (snd (registerRoutes (RouteList [ping_entry]) new_core))
  = registerRoutes (RouteList ([ping_entry] ++ [chat_entry; nameless_entry]))
      new_core.
Proof.
  apply (registration_composes [ping_entry] [chat_entry; nameless_entry]
           new_core).
  repeat constructor. eexists _, _.
  split_and!; [reflexivity|done|reflexivity].
Defined.

(** * Further properties of the local event bus *)

Module BusLaws.
Import Bus.
Import BusProperties.
#[local] Open Scope nat_scope.

(** ** [on] and [off] on the registry *)

Lemma on_existing ev cb st a :
  eventListeners st !! ev = Some a →
  on ev cb st
  = MkState (alter (fun l => l ++ [cb]) a (arrays st))
            (eventListeners st) (trace st) (transport_off st).
Proof. intros H. unfold on. rewrite H. simpl. by rewrite H. Qed.

Lemma on_fresh ev cb st :
  eventListeners st !! ev = None →
  on ev cb st
  = MkState (arrays st ++ [[cb]])
            (<[ev := length (arrays st)]> (eventListeners st)) (trace st)
            (transport_off st).
Proof.
  intros H. unfold on. rewrite H. simpl. rewrite lookup_insert_eq.
  f_equal. rewrite alter_app_r_alt by done. by rewrite Nat.sub_diag.
Qed.

Lemma registry_ok_empty : registry_ok empty.
Proof. split; simpl; intros *; by rewrite lookup_empty. Qed.

Lemma registry_ok_on ev cb st : registry_ok st → registry_ok (on ev cb st).
Proof.
  intros [Hb Hi]. destruct (eventListeners st !! ev) as [a|] eqn:E.
  - rewrite (on_existing _ _ _ _ E). split; simpl.
    + intros ev' a' H. rewrite length_alter. by eapply Hb.
    + done.
  - rewrite (on_fresh _ _ _ E). split; simpl.
    + intros ev' a' [[_ <-]|[_ H]]%lookup_insert_Some;
        rewrite length_app; simpl; [lia|]. apply Hb in H. lia.
    + intros ev1 ev2 a' [[<- <-]|[N1 H1]]%lookup_insert_Some
        [[<- E2]|[N2 H2]]%lookup_insert_Some; try done.
      * apply Hb in H2. lia.
      * apply Hb in H1. lia.
      * by eapply Hi.
Qed.

Lemma registry_ok_off ev cb st : registry_ok st → registry_ok (off ev cb st).
Proof.
  intros [Hb Hi]. unfold off, splice. repeat case_match; try done;
    (split; simpl; [|done]); intros ev' a' Hlk; rewrite ?length_insert;
    by eapply Hb.
Qed.

Lemma registry_ok_register_all ev l : registry_ok (register_all ev l).
Proof.
  unfold register_all. generalize registry_ok_empty. generalize empty.
  induction l as [|cb l IH]; intros st Hst; simpl; [done|].
  apply IH. by apply registry_ok_on.
Qed.

Lemma listeners_on ev cb st ev' :
  registry_ok st →
  listeners ev' (on ev cb st)
  = if decide (ev' = ev) then listeners ev' st ++ [cb] else listeners ev' st.
Proof.
  intros [Hb Hi]. unfold listeners.
  destruct (eventListeners st !! ev) as [a|] eqn:E.
  - rewrite (on_existing _ _ _ _ E). simpl. case_decide as Hev.
    + subst ev'. rewrite E. simpl. rewrite list_lookup_alter_eq.
      destruct (lookup_lt_is_Some_2 (arrays st) a (Hb _ _ E)) as [l ->].
      done.
    + destruct (eventListeners st !! ev') as [a'|] eqn:E'; [|done]. simpl.
      rewrite list_lookup_alter_ne; [done|].
      intros ->. apply Hev. by eapply Hi.
  - rewrite (on_fresh _ _ _ E). simpl. case_decide as Hev.
    + subst ev'. rewrite lookup_insert_eq, E. simpl.
      by rewrite list_lookup_middle.
    + rewrite lookup_insert_ne by done.
      destruct (eventListeners st !! ev') as [a'|] eqn:E'; [|done]. simpl.
      by rewrite lookup_app_l by (by eapply Hb).
Qed.

Lemma delete_indexOf cb l :
  match indexOf cb l with
  | Some idx => delete idx l
  | None => l
  end = remove_first cb l.
Proof.
  induction l as [|x l IH]; simpl; [done|].
  case_bool_decide; [done|].
  destruct (indexOf cb l) as [idx|]; simpl; by rewrite <- IH.
Qed.

Lemma listeners_record e st ev : listeners ev (record e st) = listeners ev st.
Proof. done. Qed.

Lemma listeners_off ev cb st ev' :
  registry_ok st →
  listeners ev' (off ev cb st)
  = if decide (ev' = ev) then remove_first cb (listeners ev' st)
    else listeners ev' st.
Proof.
  intros [Hb Hi]. unfold off.
  destruct (eventListeners st !! ev) as [a|] eqn:E.
  - assert (listeners ev' (splice a cb st)
            = if decide (ev' = ev) then remove_first cb (listeners ev' st)
              else listeners ev' st) as Hs;
      [|by destruct (transport_off st); rewrite ?listeners_record].
    unfold splice.
    destruct (lookup_lt_is_Some_2 (arrays st) a (Hb _ _ E)) as [l El].
    rewrite El. pose proof (delete_indexOf cb l) as Hd.
    destruct (indexOf cb l) as [idx|]; unfold listeners; simpl.
    + case_decide as Hev.
      * subst ev'. rewrite E. simpl.
        rewrite list_lookup_insert_eq by (by eapply Hb).
        rewrite El. simpl. by rewrite Hd.
      * destruct (eventListeners st !! ev') as [a'|] eqn:E'; [|done]. simpl.
        rewrite list_lookup_insert_ne; [done|].
        intros ->. apply Hev. by eapply Hi.
    + case_decide as Hev; [|done].
      subst ev'. rewrite E. simpl. rewrite El. simpl. by rewrite <- Hd.
  - case_decide as Hev; [|done]. subst ev'.
    unfold listeners. by rewrite E.
Qed.

Lemma remove_first_absent cb l : cb ∉ l → remove_first cb l = l.
Proof.
  induction l as [|x l IH]; intros H; simpl; [done|].
  apply not_elem_of_cons in H as [Hx H].
  rewrite bool_decide_eq_false_2 by done. by rewrite IH.
Qed.

Lemma remove_first_snoc cb l :
  remove_first cb (l ++ [cb])
  = if decide (cb ∈ l) then remove_first cb l ++ [cb] else l.
Proof.
  induction l as [|x l IH]; cbn [app remove_first].
  - rewrite bool_decide_eq_true_2 by done.
    by rewrite decide_False by apply not_elem_of_nil.
  - case_bool_decide as Hx.
    + subst x. rewrite decide_True by apply list_elem_of_here. done.
    + rewrite IH. destruct (decide (cb ∈ l)) as [Hin|Hnin].
      * rewrite decide_True by (by apply list_elem_of_further). done.
      * rewrite decide_False; [done|].
        intros [?|?]%elem_of_cons; congruence.
Qed.

(** X13.  [on] appends: the listener is added at the end of the list of
    its event, also when it is registered there already, and the lists of
    the other events are as they were. *)
Theorem on_appends ev cb st :
  registry_ok st →
  registry_ok (on ev cb st)
  ∧ listeners ev (on ev cb st) = listeners ev st ++ [cb]
  ∧ ∀ ev', ev' ≠ ev → listeners ev' (on ev cb st) = listeners ev' st.
Proof.
  intros Hok. split_and!.
  - by apply registry_ok_on.
  - rewrite listeners_on by done. by rewrite decide_True.
  - intros ev' Hev. rewrite listeners_on by done. by rewrite decide_False.
Qed.

Lemma on_appends_witness :
  registry_ok (on "e" 1 (register_all "e" [1; 2]))
  ∧ listeners "e" (on "e" 1 (register_all "e" [1; 2]))
    = listeners "e" (register_all "e" [1; 2]) ++ [1]
  ∧ ∀ ev', ev' ≠ "e" →
      listeners ev' (on "e" 1 (register_all "e" [1; 2]))
      = listeners ev' (register_all "e" [1; 2]).
Proof.
  apply (on_appends "e" 1 (register_all "e" [1; 2])).
  apply registry_ok_register_all.
Defined.

(** X14.  [off] removes the first registration of the listener for the
    event and nothing else: later registrations of the same listener and
    the lists of the other events stay, and removing a listener that is not
    registered for the event leaves every list as it was.  The call tells
    the transport, once, exactly when the event has a list, even an empty
    one, and the transport has an [off] of its own, whether the listener
    was registered or not, and it ends as that [off] ends; otherwise it
    returns and leaves the trace as it was. *)
Theorem off_removes_first_registration ev cb st :
  registry_ok st →
  registry_ok (off ev cb st)
  ∧ listeners ev (off ev cb st) = remove_first cb (listeners ev st)
  ∧ (∀ ev', ev' ≠ ev → listeners ev' (off ev cb st) = listeners ev' st)
  ∧ (cb ∉ listeners ev st →
     arrays (off ev cb st) = arrays st
     ∧ eventListeners (off ev cb st) = eventListeners st)
  ∧ (eventListeners st !! ev = None ∨ transport_off st = None →
     off_result ev cb st = Ok tt ∧ trace (off ev cb st) = trace st)
  ∧ (∀ a f,
       eventListeners st !! ev = Some a → transport_off st = Some f →
       off_result ev cb st = f (trace st) ev cb
       ∧ trace (off ev cb st) = trace st ++ [Notified ev cb]).
Proof.
  intros Hok. split_and!.
  - by apply registry_ok_off.
  - rewrite listeners_off by done. by rewrite decide_True.
  - intros ev' Hev. rewrite listeners_off by done. by rewrite decide_False.
  - intros Hcb. unfold off, listeners in *.
    destruct (eventListeners st !! ev) as [a|]; [|done]. simpl in Hcb.
    assert (splice a cb st = st) as ->.
    { unfold splice. destruct (arrays st !! a) as [l|]; [|done].
      simpl in Hcb. by rewrite indexOf_absent. }
    by destruct (transport_off st).
  - intros H. unfold off_result, off.
    destruct (eventListeners st !! ev) as [a|]; [|done].
    destruct H as [H|H]; [done|]. rewrite H. by rewrite splice_trace.
  - intros a f Ha Hf. unfold off_result, off. rewrite Ha, Hf. simpl.
    by rewrite splice_trace.
Qed.

Lemma off_removes_first_witness :
  registry_ok (off "e" 1 (register_with mock_off "e" [1; 2; 1]))
  ∧ listeners "e" (off "e" 1 (register_with mock_off "e" [1; 2; 1]))
    = remove_first 1 (listeners "e" (register_with mock_off "e" [1; 2; 1]))
  ∧ (∀ ev', ev' ≠ "e" →
       listeners ev' (off "e" 1 (register_with mock_off "e" [1; 2; 1]))
       = listeners ev' (register_with mock_off "e" [1; 2; 1]))
  ∧ (1 ∉ listeners "e" (register_with mock_off "e" [1; 2; 1]) →
     arrays (off "e" 1 (register_with mock_off "e" [1; 2; 1]))
     = arrays (register_with mock_off "e" [1; 2; 1])
     ∧ eventListeners (off "e" 1 (register_with mock_off "e" [1; 2; 1]))
       = eventListeners (register_with mock_off "e" [1; 2; 1]))
  ∧ (eventListeners (register_with mock_off "e" [1; 2; 1]) !! "e" = None
     ∨ transport_off (register_with mock_off "e" [1; 2; 1]) = None →
     off_result "e" 1 (register_with mock_off "e" [1; 2; 1]) = Ok tt
     ∧ trace (off "e" 1 (register_with mock_off "e" [1; 2; 1]))
       = trace (register_with mock_off "e" [1; 2; 1]))
  ∧ (∀ a f,
       eventListeners (register_with mock_off "e" [1; 2; 1]) !! "e" = Some a →
       transport_off (register_with mock_off "e" [1; 2; 1]) = Some f →
       off_result "e" 1 (register_with mock_off "e" [1; 2; 1])
       = f (trace (register_with mock_off "e" [1; 2; 1])) "e" 1
       ∧ trace (off "e" 1 (register_with mock_off "e" [1; 2; 1]))
         = trace (register_with mock_off "e" [1; 2; 1]) ++ [Notified "e" 1]).
Proof.
  apply (off_removes_first_registration "e" 1
           (register_with mock_off "e" [1; 2; 1])).
  apply (registry_ok_register_all "e" [1; 2; 1]).
Defined.

Example off_with_the_mock_adapter_throws_after_removing :
  off_result "e" 1 (register_with mock_off "e" [1; 2; 1])
  = Exn channel_name_missing
  ∧ listeners "e" (off "e" 1 (register_with mock_off "e" [1; 2; 1])) = [2; 1]
  ∧ trace (off "e" 7 (register_with mock_off "e" [1; 2; 1]))
    = [Notified "e" 7]
  ∧ trace (off "other" 1 (register_with mock_off "e" [1; 2; 1])) = [].
Proof. split_and!; by vm_compute. Qed.

(** X15.  Registering a listener and removing it again gives back the list
    of the event when the listener was not registered before; when it was,
    it is the old registration that goes and the new one that stays, at the
    end of the list. *)
Theorem on_then_off ev cb st :
  registry_ok st →
  (cb ∉ listeners ev st →
   listeners ev (off ev cb (on ev cb st)) = listeners ev st)
  ∧ (cb ∈ listeners ev st →
     listeners ev (off ev cb (on ev cb st))
     = remove_first cb (listeners ev st) ++ [cb]).
Proof.
  intros Hok.
  assert (listeners ev (off ev cb (on ev cb st))
          = remove_first cb (listeners ev st ++ [cb])) as ->.
  { rewrite listeners_off by (by apply registry_ok_on).
    rewrite decide_True by done. rewrite listeners_on by done.
    by rewrite decide_True. }
  rewrite remove_first_snoc. split; intros H.
  - by rewrite decide_False.
  - by rewrite decide_True.
Qed.

Lemma on_then_off_witness :
  (2 ∉ listeners "e" (register_all "e" [1; 2; 3]) →
   listeners "e" (off "e" 2 (on "e" 2 (register_all "e" [1; 2; 3])))
   = listeners "e" (register_all "e" [1; 2; 3]))
  ∧ (2 ∈ listeners "e" (register_all "e" [1; 2; 3]) →
     listeners "e" (off "e" 2 (on "e" 2 (register_all "e" [1; 2; 3])))
     = remove_first 2 (listeners "e" (register_all "e" [1; 2; 3])) ++ [2]).
Proof.
  apply (on_then_off "e" 2 (register_all "e" [1; 2; 3])).
  apply registry_ok_register_all.
Defined.

Example on_then_off_moves_the_listener :
  listeners "e" (off "e" 2 (on "e" 2 (register_all "e" [1; 2; 3])))
  = [1; 3; 2].
Proof. by vm_compute. Qed.

(** ** Emissions during which the registry changes *)

Lemma all_harmless (body : listener -> JS.value -> script) data st
    (l : list listener) :
  (∀ cb, cb ∈ l → inert (body cb data) ∧ result_of (body cb data) = Ok tt) →
  ∀ cb, cb ∈ l → harmless (body cb data) st.
Proof. intros H cb [Hi Ho]%H. by apply inert_harmless. Qed.

(** An emission during which the listener [r] registers [x] for the event
    being emitted. *)
Lemma emit_with_addition body ev data st a pre r post x k fuel :
  eventListeners st !! ev = Some a →
  arrays st !! a = Some (pre ++ r :: post) →
  body r data = On ev x k → inert k → result_of k = Ok tt →
  (∀ cb, cb ∈ pre ++ post ++ [x] →
     inert (body cb data) ∧ result_of (body cb data) = Ok tt) →
  length (pre ++ r :: post) + 1 < fuel →
  ∃ st' evs,
    emit body fuel ev data st = Some (Ok tt, st')
    ∧ trace st' = trace st ++ evs
    ∧ invoked evs = pre ++ r :: post ++ [x]
    ∧ eventListeners st' !! ev = Some a
    ∧ arrays st' !! a = Some (pre ++ r :: post ++ [x]).
Proof.
  intros Ha Hl Hr Hk Hkr Hothers Hfuel.
  unfold emit, internalEmit. rewrite Ha.
  rewrite length_app in Hfuel. simpl in Hfuel.
  set (extra := fuel - length pre - length post - 3).
  replace fuel
    with (length pre + S (length (post ++ [x]) + S extra))
    by (rewrite length_app; simpl; lia).
  destruct (iterate_prefix body data a (S (length (post ++ [x]) + S extra))
              pre (r :: post) st)
    as (st1 & evs1 & -> & (Ha1 & He1 & Ht1) & T1 & I1); [done| |].
  { apply all_harmless. intros cb Hcb. apply Hothers, elem_of_app. by left. }
  rewrite (iterate_step _ _ _ _ _ _ r)
    by (rewrite Ha1, Hl; simpl; by apply list_lookup_middle).
  rewrite Hr. cbn [run].
  rewrite (on_existing ev x _ a) by (simpl; congruence).
  set (s2 := MkState _ _ _ _).
  destruct (run_inert k s2 Hk) as (Ha2 & He2 & Ht2).
  pose proof (run_result k s2 (or_intror Hk)) as Hres. rewrite Hkr in Hres.
  destruct (run_trace k s2) as (evsk & Tk & Ik).
  destruct (run k s2) as [rk st2] eqn:Ek. simpl in Hres, Ha2, He2, Tk.
  subst rk.
  assert (arrays st2 !! a = Some ((pre ++ [r]) ++ (post ++ [x]) ++ []))
    as Hl2.
  { rewrite Ha2. unfold s2. simpl. rewrite list_lookup_alter_eq, Ha1, Hl.
    simpl. by rewrite app_nil_r, <- !app_assoc. }
  destruct (iterate_segment body data a (S extra) (post ++ [x])
              (pre ++ [r]) [] st2 Hl2)
    as (st3 & evs3 & It & (Ha3 & He3 & Ht3) & T3 & I3).
  { apply all_harmless. intros cb Hcb. apply Hothers, elem_of_app. by right. }
  replace (length (pre ++ [r])) with (S (length pre)) in It
    by (rewrite length_app; simpl; lia).
  rewrite It.
  assert (arrays st3 !! a = Some (pre ++ r :: post ++ [x])) as Hl3.
  { rewrite Ha3, Hl2. by rewrite app_nil_r, <- app_assoc. }
  replace (S (length pre) + length (post ++ [x]))
    with (length (pre ++ r :: post ++ [x]))
    by (rewrite !length_app; simpl; rewrite ?length_app; simpl; lia).
  rewrite (iterate_end _ _ _ _ _ _ Hl3).
  exists st3, (evs1 ++ Invoked r data :: evsk ++ evs3).
  split_and!; [done| | | |done].
  - rewrite T3, Tk. unfold s2. simpl. rewrite T1.
    by rewrite <- !app_assoc.
  - by rewrite invoked_app, invoked_cons, invoked_app, I1, Ik, I3.
  - rewrite He3, He2. unfold s2. simpl. congruence.
Qed.

(** X16.  The emission reads the live list: a listener that another
    listener registers, during the emission, for the event being emitted is
    invoked in that same emission, after the listeners that were registered
    when it started. *)
Theorem listener_added_during_emission_is_invoked
    body ev data st a pre r post x k fuel :
  eventListeners st !! ev = Some a →
  arrays st !! a = Some (pre ++ r :: post) →
  body r data = On ev x k → inert k → result_of k = Ok tt →
  (∀ cb, cb ∈ pre ++ post ++ [x] →
     inert (body cb data) ∧ result_of (body cb data) = Ok tt) →
  length (pre ++ r :: post) + 1 < fuel →
  ∃ st' evs,
    emit body fuel ev data st = Some (Ok tt, st')
    ∧ trace st' = trace st ++ evs
    ∧ invoked evs = pre ++ r :: post ++ [x]
    ∧ listeners ev st' = pre ++ r :: post ++ [x].
Proof.
  intros Ha Hl Hr Hk Hkr Hothers Hfuel.
  destruct (emit_with_addition body ev data st a pre r post x k fuel)
    as (st' & evs & E & T & I & Ha' & Hl'); [done..|].
  exists st', evs. split_and!; [done..|].
  unfold listeners. rewrite Ha'. simpl. by rewrite Hl'.
Qed.

Lemma listener_added_witness :
  ∃ st' evs,
    emit busy_body 5 "e" JS.Null (register_all "e" [1; adder; 2])
    = Some (Ok tt, st')
    ∧ trace st' = trace (register_all "e" [1; adder; 2]) ++ evs
    ∧ invoked evs = [1] ++ adder :: [2] ++ [6]
    ∧ listeners "e" st' = [1] ++ adder :: [2] ++ [6].
Proof.
  apply (listener_added_during_emission_is_invoked busy_body "e" JS.Null
           (register_all "e" [1; adder; 2]) 0 [1] adder [2] 6 Return 5).
  - reflexivity.
  - reflexivity.
  - reflexivity.
  - exact I.
  - reflexivity.
  - intros cb Hcb.
    repeat (apply elem_of_cons in Hcb as [->|Hcb]; [by vm_compute|]).
    by apply elem_of_nil in Hcb.
  - simpl. lia.
Defined.

(** An emission during which the listener [r] removes itself, and the
    [off] of the transport, if there is one, returns. *)
Lemma emit_with_self_removal body ev data st a pre r skipped post k fuel :
  eventListeners st !! ev = Some a →
  arrays st !! a = Some (pre ++ r :: skipped :: post) →
  body r data = Off ev r k → inert k → result_of k = Ok tt →
  r ∉ pre →
  (∀ cb, cb ∈ pre ++ post →
     inert (body cb data) ∧ result_of (body cb data) = Ok tt) →
  length (pre ++ r :: post) < fuel →
  off_returns ev r st →
  ∃ st' evs,
    emit body fuel ev data st = Some (Ok tt, st')
    ∧ trace st' = trace st ++ evs
    ∧ invoked evs = pre ++ r :: post
    ∧ eventListeners st' !! ev = Some a
    ∧ arrays st' !! a = Some (pre ++ skipped :: post).
Proof.
  intros Ha Hl Hr Hk Hkr Hrpre Hothers Hfuel Hquiet.
  unfold emit, internalEmit. rewrite Ha.
  rewrite length_app in Hfuel. simpl in Hfuel.
  set (extra := fuel - length pre - length post - 2).
  replace fuel with (length pre + S (length post + S extra)) by lia.
  destruct (iterate_prefix body data a (S (length post + S extra))
              pre (r :: skipped :: post) st)
    as (st1 & evs1 & -> & (Ha1 & He1 & Ht1) & T1 & I1); [done| |].
  { apply all_harmless. intros cb Hcb. apply Hothers, elem_of_app. by left. }
  rewrite (iterate_step _ _ _ _ _ _ r)
    by (rewrite Ha1, Hl; simpl; by apply list_lookup_middle).
  rewrite Hr. cbn [run].
  rewrite off_result_returns
    by (intros f t Hf; apply Hquiet; simpl in Hf; congruence).
  destruct (off_removes ev r (record (Invoked r data) st1) a
              pre (skipped :: post)) as (Ha0 & He0 & Ht0);
    [simpl; congruence|simpl; by rewrite Ha1, Hl|done|].
  destruct (off_trace ev r (record (Invoked r data) st1))
    as (evs0 & T0 & I0).
  set (s2 := off ev r _) in *.
  destruct (run_inert k s2 Hk) as (Ha2 & He2 & Ht2).
  pose proof (run_result k s2 (or_intror Hk)) as Hres. rewrite Hkr in Hres.
  destruct (run_trace k s2) as (evsk & Tk & Ik).
  destruct (run k s2) as [rk st2] eqn:Ek. simpl in Hres, Ha2, He2, Ht2, Tk.
  subst rk.
  assert (arrays st2 !! a = Some ((pre ++ [skipped]) ++ post ++ [])) as Hl2.
  { rewrite Ha2, Ha0. simpl.
    rewrite list_lookup_insert_eq
      by (rewrite Ha1; by eapply lookup_lt_Some).
    by rewrite app_nil_r, <- !app_assoc. }
  destruct (iterate_segment body data a (S extra) post
              (pre ++ [skipped]) [] st2 Hl2)
    as (st3 & evs3 & It & (Ha3 & He3 & Ht3) & T3 & I3).
  { apply all_harmless. intros cb Hcb. apply Hothers, elem_of_app. by right. }
  replace (length (pre ++ [skipped])) with (S (length pre)) in It
    by (rewrite length_app; simpl; lia).
  rewrite It.
  assert (arrays st3 !! a = Some (pre ++ skipped :: post)) as Hl3.
  { rewrite Ha3, Hl2. by rewrite app_nil_r, <- app_assoc. }
  replace (S (length pre) + length post)
    with (length (pre ++ skipped :: post))
    by (rewrite !length_app; simpl; lia).
  rewrite (iterate_end _ _ _ _ _ _ Hl3).
  exists st3, (evs1 ++ Invoked r data :: evs0 ++ evsk ++ evs3).
  split_and!; [done| | | |done].
  - rewrite T3, Tk, T0. simpl. rewrite T1.
    by rewrite <- !app_assoc.
  - by rewrite invoked_app, invoked_cons, !invoked_app, I1, I0, Ik, I3.
  - rewrite He3, He2, He0. simpl. congruence.
Qed.

(** The same emission when the [off] of the transport throws. *)
Lemma emit_with_failed_self_removal
    body ev data st a pre r skipped post k e fuel :
  eventListeners st !! ev = Some a →
  arrays st !! a = Some (pre ++ r :: skipped :: post) →
  body r data = Off ev r k →
  r ∉ pre →
  (∀ cb, cb ∈ pre →
     inert (body cb data) ∧ result_of (body cb data) = Ok tt) →
  length pre < fuel →
  off_throws ev r e st →
  ∃ st' evs,
    emit body fuel ev data st = Some (Exn e, st')
    ∧ trace st' = trace st ++ evs
    ∧ invoked evs = pre ++ [r]
    ∧ eventListeners st' !! ev = Some a
    ∧ arrays st' !! a = Some (pre ++ skipped :: post).
Proof.
  intros Ha Hl Hr Hrpre Hothers Hfuel (f & Hf & Hthrow).
  unfold emit, internalEmit. rewrite Ha.
  replace fuel with (length pre + S (fuel - length pre - 1)) by lia.
  destruct (iterate_prefix body data a (S (fuel - length pre - 1))
              pre (r :: skipped :: post) st)
    as (st1 & evs1 & -> & (Ha1 & He1 & Ht1) & T1 & I1); [done| |].
  { by apply all_harmless. }
  rewrite (iterate_step _ _ _ _ _ _ r)
    by (rewrite Ha1, Hl; simpl; by apply list_lookup_middle).
  rewrite Hr. cbn [run].
  rewrite (off_result_throws ev r e _ a);
    [|simpl; congruence|exists f; split; [simpl; congruence|done]].
  destruct (off_removes ev r (record (Invoked r data) st1) a
              pre (skipped :: post)) as (Ha0 & He0 & Ht0);
    [simpl; congruence|simpl; by rewrite Ha1, Hl|done|].
  destruct (off_trace ev r (record (Invoked r data) st1))
    as (evs0 & T0 & I0).
  eexists _, (evs1 ++ Invoked r data :: evs0). split_and!; [done| | | |].
  - rewrite T0. simpl. rewrite T1. by rewrite <- !app_assoc.
  - by rewrite invoked_app, invoked_cons, I1, I0.
  - rewrite He0. simpl. congruence.
  - rewrite Ha0. simpl.
    by rewrite list_lookup_insert_eq
      by (rewrite Ha1; by eapply lookup_lt_Some).
Qed.

(** X17.  A listener that removes itself while it is being invoked takes
    itself out of the list, and the listener registered right after it is
    not invoked in this emission, whatever it is, although it stays
    registered.  When the transport has no [off] of its own, or its [off]
    returns, the listeners further on are invoked as usual.  When the
    [off] of the transport throws, the exception ends the emission at the
    listener that removed itself. *)
Theorem self_removal_skips_the_next_listener
    body ev data st a pre r skipped post k fuel :
  eventListeners st !! ev = Some a →
  arrays st !! a = Some (pre ++ r :: skipped :: post) →
  body r data = Off ev r k →
  r ∉ pre →
  (∀ cb, cb ∈ pre →
     inert (body cb data) ∧ result_of (body cb data) = Ok tt) →
  length (pre ++ r :: post) < fuel →
  (off_returns ev r st →
   inert k → result_of k = Ok tt →
   (∀ cb, cb ∈ post →
      inert (body cb data) ∧ result_of (body cb data) = Ok tt) →
   ∃ st' evs,
     emit body fuel ev data st = Some (Ok tt, st')
     ∧ trace st' = trace st ++ evs
     ∧ invoked evs = pre ++ r :: post
     ∧ listeners ev st' = pre ++ skipped :: post)
  ∧ (∀ e, off_throws ev r e st →
       ∃ st' evs,
         emit body fuel ev data st = Some (Exn e, st')
         ∧ trace st' = trace st ++ evs
         ∧ invoked evs = pre ++ [r]
         ∧ listeners ev st' = pre ++ skipped :: post).
Proof.
  intros Ha Hl Hr Hrpre Hpre Hfuel. split.
  - intros Hquiet Hk Hkr Hpost.
    destruct (emit_with_self_removal body ev data st a pre r skipped post k
                fuel) as (st' & evs & E & T & I & Ha' & Hl'); [done..| |done|done|].
    { intros cb [?|?]%elem_of_app; auto. }
    exists st', evs. split_and!; [done..|].
    unfold listeners. rewrite Ha'. simpl. by rewrite Hl'.
  - intros e Hthrow.
    destruct (emit_with_failed_self_removal body ev data st a pre r skipped
                post k e fuel) as (st' & evs & E & T & I & Ha' & Hl');
      [done..| |done|].
    { rewrite length_app in Hfuel. simpl in Hfuel. lia. }
    exists st', evs. split_and!; [done..|].
    unfold listeners. rewrite Ha'. simpl. by rewrite Hl'.
Qed.

Lemma self_removal_witness :
  (∃ st' evs,
     emit busy_body 4 "e" JS.Null
       (register_with quiet_off "e" [1; once; 2; 3])
     = Some (Ok tt, st')
     ∧ trace st' = trace (register_with quiet_off "e" [1; once; 2; 3]) ++ evs
     ∧ invoked evs = [1] ++ once :: [3]
     ∧ listeners "e" st' = [1] ++ 2 :: [3])
  ∧ (∃ st' evs,
       emit busy_body 4 "e" JS.Null
         (register_with mock_off "e" [1; once; 2; 3])
       = Some (Exn channel_name_missing, st')
       ∧ trace st' = trace (register_with mock_off "e" [1; once; 2; 3]) ++ evs
       ∧ invoked evs = [1] ++ [once]
       ∧ listeners "e" st' = [1] ++ 2 :: [3]).
Proof.
  assert (once ∉ [1]) as Hx.
  { intros H. repeat (apply elem_of_cons in H as [[=]|H]).
    by apply elem_of_nil in H. }
  assert (∀ l : list listener, (∀ cb, cb ∈ l → cb = 1 ∨ cb = 3) →
            ∀ cb, cb ∈ l →
              inert (busy_body cb JS.Null)
              ∧ result_of (busy_body cb JS.Null) = Ok tt) as Hinert.
  { intros l Hl cb [->| ->]%Hl; by vm_compute. }
  assert (∀ cb : listener, cb ∈ [1] → cb = 1 ∨ cb = 3) as H1.
  { intros cb ->%list_elem_of_singleton. by left. }
  assert (∀ cb : listener, cb ∈ [3] → cb = 1 ∨ cb = 3) as H3.
  { intros cb ->%list_elem_of_singleton. by right. }
  split.
  - destruct (self_removal_skips_the_next_listener busy_body "e" JS.Null
                (register_with quiet_off "e" [1; once; 2; 3]) 0 [1] once 2
                [3] Return 4) as [Hreturns _].
    + reflexivity.
    + reflexivity.
    + reflexivity.
    + exact Hx.
    + exact (Hinert [1] H1).
    + simpl. lia.
    + apply Hreturns.
      * intros f t [= <-]. reflexivity.
      * exact I.
      * reflexivity.
      * exact (Hinert [3] H3).
  - destruct (self_removal_skips_the_next_listener busy_body "e" JS.Null
                (register_with mock_off "e" [1; once; 2; 3]) 0 [1] once 2
                [3] Return 4) as [_ Hthrows].
    + reflexivity.
    + reflexivity.
    + reflexivity.
    + exact Hx.
    + exact (Hinert [1] H1).
    + simpl. lia.
    + apply Hthrows. exists mock_off. split; reflexivity.
Defined.

Example self_removal_with_the_mock_adapter_ends_the_emission :
  emit busy_body 4 "e" JS.Null (register_with mock_off "e" [1; once; 2; 3])
  = Some (Exn channel_name_missing,
          MkState [[1; 2; 3]] {["e" := 0]}
                  [Invoked 1 JS.Null; Invoked once JS.Null;
                   Notified "e" once]
                  (Some mock_off)).
Proof. by vm_compute. Qed.

(** The iterator never reaches the end of a list whose listeners all
    register themselves again. *)
Lemma iterate_forever body ev data a fuel :
  ∀ st l idx,
    eventListeners st !! ev = Some a →
    arrays st !! a = Some l →
    idx < length l →
    (∀ cb, cb ∈ l →
       ∃ k, body cb data = On ev cb k ∧ inert k ∧ result_of k = Ok tt) →
    iterate body fuel a data idx st = None.
Proof.
  induction fuel as [|fuel IH]; intros st l idx Ha Hl Hidx Hall; [done|].
  destruct (lookup_lt_is_Some_2 l idx Hidx) as [cb Hcb].
  rewrite (iterate_step _ _ _ _ _ _ cb) by (by rewrite Hl).
  destruct (Hall cb) as (k & Hb & Hk & Hkr);
    [by eapply list_elem_of_lookup_2|].
  rewrite Hb. cbn [run].
  rewrite (on_existing ev cb _ a) by done.
  set (s2 := MkState _ _ _ _).
  destruct (run_inert k s2 Hk) as (Ha2 & He2 & Ht2).
  pose proof (run_result k s2 (or_intror Hk)) as Hres. rewrite Hkr in Hres.
  destruct (run k s2) as [rk st2] eqn:Ek. simpl in Hres, Ha2, He2. subst rk.
  apply (IH st2 (l ++ [cb])).
  - rewrite He2. done.
  - rewrite Ha2. unfold s2. simpl. by rewrite list_lookup_alter_eq, Hl.
  - rewrite length_app. simpl. lia.
  - intros cb' [Hin| ->%list_elem_of_singleton]%elem_of_app; [by apply Hall|].
    by exists k.
Qed.

(** X18.  An emission does not end when the listeners of the event all
    register themselves again for that event while they are invoked: the
    list grows as fast as the iterator advances, and [emit] gives no result
    however long it is left to run. *)
Theorem emit_never_ends_on_growing_list body ev data st a l :
  eventListeners st !! ev = Some a →
  arrays st !! a = Some l →
  l ≠ [] →
  (∀ cb, cb ∈ l →
     ∃ k, body cb data = On ev cb k ∧ inert k ∧ result_of k = Ok tt) →
  ∀ fuel, emit body fuel ev data st = None.
Proof.
  intros Ha Hl Hne Hall fuel. unfold emit, internalEmit. rewrite Ha.
  eapply iterate_forever; [done|done| |done].
  destruct l; [done|]. simpl. lia.
Qed.

Lemma emit_never_ends_witness :
  emit growing_body 1000 "e" JS.Null (register_all "e" [1]) = None.
Proof.
  apply (emit_never_ends_on_growing_list growing_body "e" JS.Null
           (register_all "e" [1]) 0 [1]).
  - reflexivity.
  - reflexivity.
  - done.
  - intros cb _. by exists Return.
Defined.
End BusLaws.

(** * Properties of the public API *)

(** ** Hooks *)

Lemma hook_of_name_of_hook n : Api.hook_of_name (name_of_hook n) = Some n.
Proof. by destruct n. Qed.

Lemma hook_of_other_name name :
  (∀ n, name ≠ name_of_hook n) → Api.hook_of_name name = None.
Proof.
  intros H. unfold Api.hook_of_name.
  pose proof (proj2 (String.eqb_neq _ _) (H beforeStart)) as H1.
  pose proof (proj2 (String.eqb_neq _ _) (H afterStart)) as H2.
  pose proof (proj2 (String.eqb_neq _ _) (H beforeMessage)) as H3.
  pose proof (proj2 (String.eqb_neq _ _) (H afterMessage)) as H4.
  pose proof (proj2 (String.eqb_neq _ _) (H onError)) as H5.
  simpl in *. by rewrite H1, H2, H3, H4, H5.
Qed.

Lemma same_hook_name_spec a b : Api.same_hook_name a b = true ↔ a = b.
Proof. by destruct a, b. Qed.

(** X19.  [hook] registers under the five names of the lifecycle and
    under no other.  Under one of them, the callback is added after the
    hooks already registered under that name, the other names keep their
    hooks, and routes and middleware are untouched.  Under any other name
    the call raises and changes nothing: it raises the error that names
    the unknown hook, except for the names that every object inherits,
    such as [toString] or [constructor], which pass the test of [hook] and
    fail when the callback is pushed. *)
Theorem hook_registers_under_its_name cb i :
  (∀ n,
     fst (Api.hook (name_of_hook n) cb i) = Api.Returned
     ∧ lifecycleHooks (Api.dispatcher (snd (Api.hook (name_of_hook n) cb i))) n
       = lifecycleHooks (Api.dispatcher i) n ++ [cb]
     ∧ (∀ n', n' ≠ n →
          lifecycleHooks
            (Api.dispatcher (snd (Api.hook (name_of_hook n) cb i))) n'
          = lifecycleHooks (Api.dispatcher i) n')
     ∧ routes (Api.dispatcher (snd (Api.hook (name_of_hook n) cb i)))
       = routes (Api.dispatcher i)
     ∧ globalMiddleware (Api.dispatcher (snd (Api.hook (name_of_hook n) cb i)))
       = globalMiddleware (Api.dispatcher i))
  ∧ (∀ name,
       (∀ n, name ≠ name_of_hook n) →
       name ∉ Api.object_prototype_names →
       Api.hook name cb i = (Api.Threw (Api.UnknownHook name), i))
  ∧ (∀ name,
       name ∈ Api.object_prototype_names →
       Api.hook name cb i = (Api.Threw (Api.NotAFunction "push"), i)).
Proof.
  split_and!.
  - intros n. unfold Api.hook. rewrite hook_of_name_of_hook. simpl.
    split_and!; try done.
    + by rewrite (proj2 (same_hook_name_spec n n) eq_refl).
    + intros n' Hn'. destruct (Api.same_hook_name n' n) eqn:E; [|done].
      by apply same_hook_name_spec in E.
  - intros name H Hp. unfold Api.hook. rewrite hook_of_other_name by done.
    by rewrite bool_decide_eq_false_2.
  - intros name Hp. unfold Api.hook.
    rewrite hook_of_other_name.
    + by rewrite bool_decide_eq_true_2.
    + intros n ->.
      destruct n; simpl in Hp;
        repeat (apply elem_of_cons in Hp as [[=]|Hp]);
        by apply elem_of_nil in Hp.
Qed.

Lemma hook_registers_witness :
  (∀ n,
     fst (Api.hook (name_of_hook n) (log_hook "h") fresh_instance)
     = Api.Returned
     ∧ lifecycleHooks
         (Api.dispatcher
            (snd (Api.hook (name_of_hook n) (log_hook "h") fresh_instance))) n
       = lifecycleHooks (Api.dispatcher fresh_instance) n ++ [log_hook "h"]
     ∧ (∀ n', n' ≠ n →
          lifecycleHooks
            (Api.dispatcher
               (snd (Api.hook (name_of_hook n) (log_hook "h") fresh_instance)))
            n'
          = lifecycleHooks (Api.dispatcher fresh_instance) n')
     ∧ routes
         (Api.dispatcher
            (snd (Api.hook (name_of_hook n) (log_hook "h") fresh_instance)))
       = routes (Api.dispatcher fresh_instance)
     ∧ globalMiddleware
         (Api.dispatcher
            (snd (Api.hook (name_of_hook n) (log_hook "h") fresh_instance)))
       = globalMiddleware (Api.dispatcher fresh_instance))
  ∧ Api.hook "onerror" (log_hook "h") fresh_instance
    = (Api.Threw (Api.UnknownHook "onerror"), fresh_instance)
  ∧ Api.hook "toString" (log_hook "h") fresh_instance
    = (Api.Threw (Api.NotAFunction "push"), fresh_instance).
Proof.
  destruct (hook_registers_under_its_name (log_hook "h") fresh_instance)
    as (Hknown & Hunknown & Hinherited).
  split; [exact Hknown|]. split.
  - apply Hunknown; [by intros []|].
    intros H. repeat (apply elem_of_cons in H as [[=]|H]).
    by apply elem_of_nil in H.
  - apply Hinherited. do 5 apply list_elem_of_further.
    apply list_elem_of_here.
Defined.

Example hook_under_an_inherited_name :
  Forall (fun name =>
            Api.hook name (log_hook "h") fresh_instance
            = (Api.Threw (Api.NotAFunction "push"), fresh_instance))
         [ "constructor"; "hasOwnProperty"; "isPrototypeOf";
           "propertyIsEnumerable"; "toLocaleString"; "toString"; "valueOf";
           "__proto__"; "__defineGetter__"; "__defineSetter__";
           "__lookupGetter__"; "__lookupSetter__" ]
  ∧ Forall (fun name =>
              Api.hook name (log_hook "h") fresh_instance
              = (Api.Threw (Api.UnknownHook name), fresh_instance))
           [ ""; "onerror"; "BeforeStart"; "push"; "length"; "prototype" ].
Proof. split; repeat constructor. Qed.

(** ** [off] on an instance *)

Example off_on_an_instance_with_the_mock_adapter :
  let i := snd (Api.adapter (Some mock_adapter)
                  (Api.on "e" 1%nat fresh_instance)) in
  fst (Api.off "e" 1%nat i) = Api.Threw (Api.FromAdapter channel_name_missing)
  ∧ Bus.listeners "e" (Api.bus (snd (Api.off "e" 1%nat i))) = []
  ∧ Bus.notified (Bus.trace (Api.bus (snd (Api.off "e" 1%nat i))))
    = [("e", 1%nat)]
  ∧ Api.off "other" 1%nat i = (Api.Returned, i)
  ∧ Api.off "e" 1%nat (Api.on "e" 1%nat fresh_instance)
    = (Api.Returned, fresh_instance_with_an_empty_list).
Proof. split_and!; by vm_compute. Qed.

(** ** The adapter *)

(** X20.  In strict mode [adapter] accepts exactly the adapters whose
    [onMessage], [send] and [broadcast] are functions; out of strict mode
    it accepts every adapter.  An accepted adapter becomes the transport; a
    refused one, or no adapter at all, raises and leaves the instance as it
    was.  Strict mode is on in a new instance and follows the last value
    that [configure] gave to the option. *)
Theorem adapter_is_validated_in_strict_mode a i :
  (Api.strictMode i = true →
   (fst (Api.adapter (Some a) i) = Api.Returned
    ↔ Api.onMessage_is_function a = true ∧ Api.send_is_function a = true
      ∧ Api.broadcast_is_function a = true))
  ∧ (Api.strictMode i = false → fst (Api.adapter (Some a) i) = Api.Returned)
  ∧ (fst (Api.adapter (Some a) i) = Api.Returned →
     Api.transport (snd (Api.adapter (Some a) i)) = Some a)
  ∧ (∀ e, fst (Api.adapter (Some a) i) = Api.Threw e →
          snd (Api.adapter (Some a) i) = i)
  ∧ Api.adapter None i = (Api.Threw Api.AdapterIsNull, i)
  ∧ (∀ options id, options !! "strictMode" = None →
       Api.strictMode (Api.createCoreRealtime options id) = true)
  ∧ (∀ v, Api.strictMode (Api.configure {["strictMode" := v]} i)
          = JS.truthy v).
Proof.
  split_and!.
  - intros Hs. unfold Api.adapter, Api.validateAdapter. rewrite Hs.
    destruct a as [[] [] [] ? ?]; simpl; split; try done;
      intros (? & ? & ?); done.
  - intros Hs. unfold Api.adapter. by rewrite Hs.
  - unfold Api.adapter. destruct (Api.strictMode i); [|done].
    by destruct (Api.validateAdapter a).
  - intros e. unfold Api.adapter. destruct (Api.strictMode i); [|done].
    by destruct (Api.validateAdapter a).
  - done.
  - intros options id Ho. unfold Api.strictMode. simpl.
    rewrite lookup_union_r by done. done.
  - intros v. unfold Api.strictMode. simpl.
    by rewrite (lookup_union_Some_l _ _ _ v) by apply lookup_singleton_eq.
Qed.

Lemma adapter_is_validated_witness :
  (Api.strictMode fresh_instance = true →
   (fst (Api.adapter (Some mute_adapter) fresh_instance) = Api.Returned
    ↔ Api.onMessage_is_function mute_adapter = true
      ∧ Api.send_is_function mute_adapter = true
      ∧ Api.broadcast_is_function mute_adapter = true))
  ∧ (Api.strictMode fresh_instance = false →
     fst (Api.adapter (Some mute_adapter) fresh_instance) = Api.Returned)
  ∧ (fst (Api.adapter (Some mute_adapter) fresh_instance) = Api.Returned →
     Api.transport (snd (Api.adapter (Some mute_adapter) fresh_instance))
     = Some mute_adapter)
  ∧ (∀ e, fst (Api.adapter (Some mute_adapter) fresh_instance) = Api.Threw e →
          snd (Api.adapter (Some mute_adapter) fresh_instance)
          = fresh_instance)
  ∧ Api.adapter None fresh_instance
    = (Api.Threw Api.AdapterIsNull, fresh_instance)
  ∧ (∀ options id, options !! "strictMode" = None →
       Api.strictMode (Api.createCoreRealtime options id) = true)
  ∧ (∀ v, Api.strictMode (Api.configure {["strictMode" := v]} fresh_instance)
          = JS.truthy v).
Proof. exact (adapter_is_validated_in_strict_mode mute_adapter fresh_instance). Defined.

Example mute_adapter_is_refused :
  Api.adapter (Some mute_adapter) fresh_instance
  = (Api.Threw (Api.AdapterMethodRequired "send"), fresh_instance).
Proof. by vm_compute. Qed.

Example mute_adapter_is_accepted_out_of_strict_mode :
  fst (Api.adapter (Some mute_adapter)
         (Api.configure {["strictMode" := JS.Bool false]} fresh_instance))
  = Api.Returned.
Proof. by vm_compute. Qed.


(** ** Starting, stopping and resetting *)

Lemma run_start_hooks_calls name i :
  ∃ evs, Api.run_start_hooks name i = Api.journal i ++ evs
         ∧ calls evs
           = Hook name <$> seq 0 (length (lifecycleHooks (Api.dispatcher i) name)).
Proof.
  unfold Api.run_start_hooks.
  destruct (runHooks_from_calls name 0 (lifecycleHooks (Api.dispatcher i) name)
              NoArgs (MkWorld false ∅ (Api.journal i))) as (evs & T & C).
  by exists evs.
Qed.

(** X21.  [start] on an instance that is not active and whose adapter has
    an [onMessage] runs the before-start hooks, registers the message
    callback with the transport once, becomes active, and then runs the
    after-start hooks; each hook runs once, in registration order, and the
    routes, the middleware and the listeners are untouched. *)
Theorem start_subscribes_between_the_hooks i a :
  Api.transport i = Some a →
  Api.isActive i = false →
  Api.onMessage_is_function a = true →
  ∃ evs1 evs2,
    fst (Api.start i) = Api.Returned
    ∧ Api.isActive (snd (Api.start i)) = true
    ∧ Api.onMessage_calls (snd (Api.start i)) = S (Api.onMessage_calls i)
    ∧ Api.journal (snd (Api.start i)) = Api.journal i ++ evs1 ++ evs2
    ∧ calls evs1
      = Hook beforeStart
          <$> seq 0 (length (lifecycleHooks (Api.dispatcher i) beforeStart))
    ∧ calls evs2
      = Hook afterStart
          <$> seq 0 (length (lifecycleHooks (Api.dispatcher i) afterStart))
    ∧ Api.dispatcher (snd (Api.start i)) = Api.dispatcher i
    ∧ Api.bus (snd (Api.start i)) = Api.bus i.
Proof.
  intros Ht Ha Hm. unfold Api.start. rewrite Ht, Ha, Hm.
  destruct (run_start_hooks_calls beforeStart i) as (evs1 & T1 & C1).
  set (i1 := Api.with_journal (Api.run_start_hooks beforeStart i) i).
  set (i2 := Api.MkInstance _ _ true _ _ _ _ _ _).
  destruct (run_start_hooks_calls afterStart i2) as (evs2 & T2 & C2).
  exists evs1, evs2. simpl. split_and!; try done.
  rewrite T2. unfold i2, i1. simpl. by rewrite T1, app_assoc.
Qed.

Lemma start_subscribes_witness :
  ∃ evs1 evs2,
    fst (Api.start ready_instance) = Api.Returned
    ∧ Api.isActive (snd (Api.start ready_instance)) = true
    ∧ Api.onMessage_calls (snd (Api.start ready_instance))
      = S (Api.onMessage_calls ready_instance)
    ∧ Api.journal (snd (Api.start ready_instance))
      = Api.journal ready_instance ++ evs1 ++ evs2
    ∧ calls evs1
      = Hook beforeStart
          <$> seq 0 (length (lifecycleHooks (Api.dispatcher ready_instance)
                               beforeStart))
    ∧ calls evs2
      = Hook afterStart
          <$> seq 0 (length (lifecycleHooks (Api.dispatcher ready_instance)
                               afterStart))
    ∧ Api.dispatcher (snd (Api.start ready_instance))
      = Api.dispatcher ready_instance
    ∧ Api.bus (snd (Api.start ready_instance)) = Api.bus ready_instance.
Proof.
  apply (start_subscribes_between_the_hooks ready_instance full_adapter);
    reflexivity.
Defined.

Example start_journal :
  Api.journal (snd (Api.start ready_instance))
  = [Called (Hook beforeStart 0); Did "starting";
     Called (Hook afterStart 0); Did "started"].
Proof. by vm_compute. Qed.

Lemma start_when_active i :
  Api.transport i ≠ None → Api.isActive i = true →
  Api.start i = (Api.Returned, warned i).
Proof.
  intros Ht Ha. unfold Api.start, warned.
  destruct (Api.transport i); [|done]. by rewrite Ha.
Qed.

Lemma start_returned_active i :
  fst (Api.start i) = Api.Returned →
  Api.transport (snd (Api.start i)) ≠ None
  ∧ Api.isActive (snd (Api.start i)) = true.
Proof.
  unfold Api.start. destruct (Api.transport i) as [a|] eqn:Ht; [|done].
  destruct (Api.isActive i) eqn:Ha; simpl.
  - intros _. split; [by rewrite ?Ht|by rewrite ?Ha].
  - destruct (Api.onMessage_is_function a); [|done]. simpl.
    intros _. split; [by rewrite ?Ht|done].
Qed.

(** X22.  [start] does nothing it should not: without an adapter it raises
    and leaves the instance as it was, no hook having run; on an instance
    that is active it only warns.  So a second [start] after one that
    returned runs no hook again and does not register the message callback
    a second time. *)
Theorem start_is_guarded i :
  (Api.transport i = None → Api.start i = (Api.Threw Api.AdapterNotDefined, i))
  ∧ (Api.transport i ≠ None → Api.isActive i = true →
     Api.start i = (Api.Returned, warned i))
  ∧ (fst (Api.start i) = Api.Returned →
     Api.start (snd (Api.start i)) = (Api.Returned, warned (snd (Api.start i)))).
Proof.
  split_and!.
  - intros Ht. unfold Api.start. by rewrite Ht.
  - apply start_when_active.
  - intros [Ht Ha]%start_returned_active. by apply start_when_active.
Qed.

Lemma start_is_guarded_witness :
  (Api.transport fresh_instance = None →
   Api.start fresh_instance = (Api.Threw Api.AdapterNotDefined, fresh_instance))
  ∧ (Api.transport (snd (Api.start ready_instance)) ≠ None →
     Api.isActive (snd (Api.start ready_instance)) = true →
     Api.start (snd (Api.start ready_instance))
     = (Api.Returned, warned (snd (Api.start ready_instance))))
  ∧ (fst (Api.start ready_instance) = Api.Returned →
     Api.start (snd (Api.start ready_instance))
     = (Api.Returned, warned (snd (Api.start ready_instance)))).
Proof.
  split_and!.
  - apply (start_is_guarded fresh_instance).
  - apply (start_is_guarded (snd (Api.start ready_instance))).
  - apply (start_is_guarded ready_instance).
Defined.

Lemma set_bus_same i : Api.set_bus (Api.bus i) i = i.
Proof. by destruct i. Qed.

(** X23.  [stop] on an instance that is not active changes nothing.  On an
    active instance it removes every listener of every event, so that an
    emission invokes nobody afterwards, calls the adapter's [disconnect]
    when the transport has one, and leaves the routes, the middleware, the
    hooks and the transport in place; it does not undo the registration of
    the message callback.  A second [stop] changes nothing. *)
Theorem stop_clears_the_listeners i :
  (Api.isActive i = false → Api.stop i = i)
  ∧ (Api.isActive i = true →
     Api.isActive (Api.stop i) = false
     ∧ (∀ ev, Bus.listeners ev (Api.bus (Api.stop i)) = [])
     ∧ (∀ body fuel ev data,
          Api.emit body fuel ev data (Api.stop i) = Some (Ok tt, Api.stop i))
     ∧ Api.disconnect_calls (Api.stop i)
       = (Api.disconnect_calls i
          + match Api.transport i with
            | Some a => if Api.own_disconnect a then 1 else 0
            | None => 0
            end)%nat
     ∧ Api.dispatcher (Api.stop i) = Api.dispatcher i
     ∧ Api.transport (Api.stop i) = Api.transport i
     ∧ Api.onMessage_calls (Api.stop i) = Api.onMessage_calls i)
  ∧ Api.stop (Api.stop i) = Api.stop i.
Proof.
  split_and!.
  - intros Ha. unfold Api.stop. by rewrite Ha.
  - intros Ha. unfold Api.stop. rewrite Ha. simpl. split_and!; try done.
    destruct (Api.transport i) as [a|]; [|lia].
    destruct (Api.own_disconnect a); lia.
  - unfold Api.stop. destruct (Api.isActive i) eqn:Ha; simpl; [done|].
    by rewrite Ha.
Qed.

Lemma stop_clears_witness :
  (Api.isActive fresh_instance = false → Api.stop fresh_instance = fresh_instance)
  ∧ (Api.isActive (snd (Api.start ready_instance)) = true →
     Api.isActive (Api.stop (snd (Api.start ready_instance))) = false
     ∧ (∀ ev, Bus.listeners ev
                (Api.bus (Api.stop (snd (Api.start ready_instance)))) = [])
     ∧ (∀ body fuel ev data,
          Api.emit body fuel ev data (Api.stop (snd (Api.start ready_instance)))
          = Some (Ok tt, Api.stop (snd (Api.start ready_instance))))
     ∧ Api.disconnect_calls (Api.stop (snd (Api.start ready_instance)))
       = (Api.disconnect_calls (snd (Api.start ready_instance))
          + match Api.transport (snd (Api.start ready_instance)) with
            | Some a => if Api.own_disconnect a then 1 else 0
            | None => 0
            end)%nat
     ∧ Api.dispatcher (Api.stop (snd (Api.start ready_instance)))
       = Api.dispatcher (snd (Api.start ready_instance))
     ∧ Api.transport (Api.stop (snd (Api.start ready_instance)))
       = Api.transport (snd (Api.start ready_instance))
     ∧ Api.onMessage_calls (Api.stop (snd (Api.start ready_instance)))
       = Api.onMessage_calls (snd (Api.start ready_instance)))
  ∧ Api.stop (Api.stop fresh_instance) = Api.stop fresh_instance.
Proof.
  split; [|split].
  - apply (stop_clears_the_listeners fresh_instance).
  - apply (stop_clears_the_listeners (snd (Api.start ready_instance))).
  - apply (stop_clears_the_listeners fresh_instance).
Defined.

Example listeners_before_and_after_stop :
  Bus.listeners "e" (Api.bus (snd (Api.start ready_instance))) = [1%nat]
  ∧ Bus.listeners "e" (Api.bus (Api.stop (snd (Api.start ready_instance))))
    = [].
Proof. split; by vm_compute. Qed.

(** X24.  After [reset] there is no adapter, no route, no global
    middleware and no hook, whatever the instance was, so that [start]
    raises until an adapter is given again; the error handler and the
    configuration survive the reset.  The listeners are removed only when
    the instance was active: the reset of an instance that is not active
    leaves them registered. *)
Theorem reset_forgets_the_setup i :
  Api.start (Api.reset i) = (Api.Threw Api.AdapterNotDefined, Api.reset i)
  ∧ Api.isActive (Api.reset i) = false
  ∧ routes (Api.dispatcher (Api.reset i)) = ∅
  ∧ globalMiddleware (Api.dispatcher (Api.reset i)) = []
  ∧ (∀ n, lifecycleHooks (Api.dispatcher (Api.reset i)) n = [])
  ∧ errorHandler (Api.dispatcher (Api.reset i))
    = errorHandler (Api.dispatcher i)
  ∧ Api.config (Api.reset i) = Api.config i
  ∧ (Api.isActive i = false → Api.bus (Api.reset i) = Api.bus i)
  ∧ (Api.isActive i = true →
     ∀ ev, Bus.listeners ev (Api.bus (Api.reset i)) = []).
Proof.
  unfold Api.reset, Api.stop.
  destruct (Api.isActive i) eqn:Ha; simpl; rewrite ?Ha; by split_and!.
Qed.

(** X25.  [stop] does not take back the message callback, and [start] does
    not remember that it gave one: starting, stopping and starting again
    registers a callback with the same transport twice, disconnects it
    once if it can be disconnected, and leaves the instance active. *)
Theorem restart_subscribes_again i a :
  Api.transport i = Some a →
  Api.isActive i = false →
  Api.onMessage_is_function a = true →
  Api.onMessage_calls (snd (Api.start (Api.stop (snd (Api.start i)))))
  = (Api.onMessage_calls i + 2)%nat
  ∧ Api.disconnect_calls (snd (Api.start (Api.stop (snd (Api.start i)))))
    = (Api.disconnect_calls i + if Api.own_disconnect a then 1 else 0)%nat
  ∧ Api.isActive (snd (Api.start (Api.stop (snd (Api.start i))))) = true
  ∧ fst (Api.start (Api.stop (snd (Api.start i)))) = Api.Returned.
Proof.
  intros Ht Ha Hm. destruct i as [c t act cfg b n d w j]. simpl in *.
  subst t act. unfold Api.start, Api.stop. simpl. rewrite Hm. simpl.
  rewrite Hm. simpl. split_and!; try done; try lia.
  all: destruct (Api.own_disconnect a); simpl; lia.
Qed.

Lemma restart_subscribes_witness :
  Api.onMessage_calls
    (snd (Api.start (Api.stop (snd (Api.start ready_instance)))))
  = (Api.onMessage_calls ready_instance + 2)%nat
  ∧ Api.disconnect_calls
      (snd (Api.start (Api.stop (snd (Api.start ready_instance)))))
    = (Api.disconnect_calls ready_instance
       + if Api.own_disconnect full_adapter then 1 else 0)%nat
  ∧ Api.isActive (snd (Api.start (Api.stop (snd (Api.start ready_instance)))))
    = true
  ∧ fst (Api.start (Api.stop (snd (Api.start ready_instance)))) = Api.Returned.
Proof.
  apply (restart_subscribes_again ready_instance full_adapter); reflexivity.
Defined.

Lemma reset_forgets_witness :
  Api.start (Api.reset (snd (Api.start ready_instance)))
  = (Api.Threw Api.AdapterNotDefined,
     Api.reset (snd (Api.start ready_instance)))
  ∧ Api.isActive (Api.reset (snd (Api.start ready_instance))) = false
  ∧ routes (Api.dispatcher (Api.reset (snd (Api.start ready_instance)))) = ∅
  ∧ globalMiddleware
      (Api.dispatcher (Api.reset (snd (Api.start ready_instance)))) = []
  ∧ (∀ n, lifecycleHooks
            (Api.dispatcher (Api.reset (snd (Api.start ready_instance)))) n
          = [])
  ∧ errorHandler (Api.dispatcher (Api.reset (snd (Api.start ready_instance))))
    = errorHandler (Api.dispatcher (snd (Api.start ready_instance)))
  ∧ Api.config (Api.reset (snd (Api.start ready_instance)))
    = Api.config (snd (Api.start ready_instance))
  ∧ (Api.isActive (snd (Api.start ready_instance)) = false →
     Api.bus (Api.reset (snd (Api.start ready_instance)))
     = Api.bus (snd (Api.start ready_instance)))
  ∧ (Api.isActive (snd (Api.start ready_instance)) = true →
     ∀ ev, Bus.listeners ev
             (Api.bus (Api.reset (snd (Api.start ready_instance)))) = []).
Proof. exact (reset_forgets_the_setup (snd (Api.start ready_instance))). Defined.

Example reset_of_an_inactive_instance_keeps_the_listeners :
  Bus.listeners "e" (Api.bus (Api.reset ready_instance)) = [1%nat].
Proof. by vm_compute. Qed.

(** ** Global middleware and the application context *)

(** X26.  Global middleware accumulate: a call of
    [registerGlobalMiddleware] adds its list after the middleware already
    registered, so that two calls amount to one call with the two lists in
    a row; an argument that is not an array raises and changes nothing. *)
Theorem global_middleware_accumulate l1 l2 i :
  globalMiddleware
    (Api.dispatcher (snd (Api.registerGlobalMiddleware (Some l1) i)))
  = globalMiddleware (Api.dispatcher i) ++ l1
  ∧ Api.registerGlobalMiddleware (Some l2)
      (snd (Api.registerGlobalMiddleware (Some l1) i))
    = Api.registerGlobalMiddleware (Some (l1 ++ l2)) i
  ∧ Api.registerGlobalMiddleware None i
    = (Api.Threw Api.MiddlewareListNotArray, i).
Proof.
  split_and!; [done| |done].
  unfold Api.registerGlobalMiddleware, Api.set_dispatcher. simpl.
  by rewrite app_assoc.
Qed.

(** X27.  [setAppContext] takes effect for the contexts created after it:
    their [appContext] is the value given, or an empty object when the
    value given is falsy; nothing else of the context depends on it. *)
Theorem setAppContext_reaches_new_contexts v i ty p ctx :
  createContext (Api.dispatcher i) ty p = Ok ctx →
  ∃ ctx',
    createContext (Api.dispatcher (Api.setAppContext v i)) ty p = Ok ctx'
    ∧ appContext ctx' = (if JS.truthy v then v else JS.Obj ∅)
    ∧ type ctx' = type ctx ∧ payload ctx' = payload ctx
    ∧ remoteClient ctx' = remoteClient ctx
    ∧ localClientId ctx' = localClientId ctx.
Proof.
  unfold createContext. simpl.
  destruct (match normalizePayload (Api.dispatcher i) with
            | Some f => f p
            | None => Ok p
            end) as [n|e]; [|done].
  intros [= <-]. eexists. by split_and!.
Qed.

Lemma setAppContext_witness :
  ∃ ctx',
    createContext (Api.dispatcher (Api.setAppContext JS.Null fresh_instance))
      "x" JS.Undefined = Ok ctx'
    ∧ appContext ctx' = (if JS.truthy JS.Null then JS.Null else JS.Obj ∅)
    ∧ type ctx' = type (MkContext "x" JS.Undefined JS.Undefined JS.Undefined
                          JS.Undefined "local" (JS.Obj ∅) JS.Undefined)
    ∧ payload ctx'
      = payload (MkContext "x" JS.Undefined JS.Undefined JS.Undefined
                   JS.Undefined "local" (JS.Obj ∅) JS.Undefined)
    ∧ remoteClient ctx'
      = remoteClient (MkContext "x" JS.Undefined JS.Undefined JS.Undefined
                        JS.Undefined "local" (JS.Obj ∅) JS.Undefined)
    ∧ localClientId ctx'
      = localClientId (MkContext "x" JS.Undefined JS.Undefined JS.Undefined
                         JS.Undefined "local" (JS.Obj ∅) JS.Undefined).
Proof.
  apply (setAppContext_reaches_new_contexts JS.Null fresh_instance "x"
           JS.Undefined).
  reflexivity.
Defined.

